(** * language_stats.py: a shallow embedding and its verified properties

    The script fetches per-repository language byte counts, sums them,
    ranks them by share, renders a Markdown table and splices the table
    into a README between two marker comments.

    Modelling conventions.
    - A Python [str] is a list of Unicode code points ([pystr]); literals
      are written as Rocq strings and decoded from UTF-8 by [utf8].
    - A Python [int] is a [Z].  A Python [float] is a rational ([Q]).
      The quotient of two [int]s in the size column is rounded to the
      nearest double, as [/] does; the percentages are kept as exact
      rationals.  [int(x)] truncates towards zero and the [.2f] format
      rounds half to even on the value it is given.
    - A [dict] is an association list in insertion order with unique keys.
    - Code that can raise returns a [result]; the file system and the
      HTTP server are explicit state. *)

From Stdlib Require Import Ascii String DecimalString DecimalPos DecimalFacts.
From Stdlib Require Import NArith ZArith QArith Qround Qfield Bool Lia Arith.
From Stdlib Require Import List Permutation Sorted.
Import ListNotations.

Close Scope Q_scope.
Open Scope nat_scope.

(** ** Python text *)

Module Text.

Definition char := N.
Definition pystr := list char.

(** UTF-8 decoding of a byte sequence; [need] continuation bytes are
    still expected and [acc] holds the bits read so far. *)
Fixpoint decode (need : nat) (acc : N) (bs : list N) : pystr :=
  match bs with
  | [] => []
  | b :: bs' =>
      match need with
      | O =>
          if (b <? 128)%N then b :: decode 0 0 bs'
          else if (b <? 224)%N then decode 1 (b - 192) bs'
          else if (b <? 240)%N then decode 2 (b - 224) bs'
          else decode 3 (b - 240) bs'
      | S O => (acc * 64 + (b - 128))%N :: decode 0 0 bs'
      | S k => decode k (acc * 64 + (b - 128))%N bs'
      end
  end.

Definition utf8 (s : string) : pystr :=
  decode 0 0 (map N_of_ascii (list_ascii_of_string s)).

Definition nl : char := 10%N.
Definition backslash : char := 92%N.

Fixpoint str_eqb (a b : pystr) : bool :=
  match a, b with
  | [], [] => true
  | x :: a', y :: b' => (x =? y)%N && str_eqb a' b'
  | _, _ => false
  end.

(** [s.startswith(p)] *)
Fixpoint startswith (p s : pystr) : bool :=
  match p, s with
  | [], _ => true
  | _ :: _, [] => false
  | x :: p', y :: s' => (x =? y)%N && startswith p' s'
  end.

(** [s.find(p)]: the lowest index at which [p] occurs in [s]. *)
Fixpoint str_find (p s : pystr) : option nat :=
  if startswith p s then Some O
  else match s with
       | [] => None
       | _ :: s' => option_map S (str_find p s')
       end.

(** [p in s] *)
Definition str_in (p s : pystr) : bool :=
  match str_find p s with Some _ => true | None => false end.

(** [s.rfind(p)] for a non-empty [p], returned as the text before and
    after the last occurrence. *)
Fixpoint rpartition (sep s : pystr) : option (pystr * pystr) :=
  match s with
  | [] => None
  | c :: s' =>
      match rpartition sep s' with
      | Some (a, b) => Some (c :: a, b)
      | None =>
          if startswith sep s then Some ([], skipn (length sep) s) else None
      end
  end.

(** [s.rsplit(sep, 1)] for a non-empty [sep]. *)
Definition rsplit_1 (sep s : pystr) : list pystr :=
  match rpartition sep s with
  | Some (a, b) => [a; b]
  | None => [s]
  end.

(** [c * n] for a one-character string; a negative count gives [""]. *)
Definition str_mul (c : char) (n : Z) : pystr := repeat c (Z.to_nat n).

Definition digit (d : Z) : char := (48 + Z.to_N d)%N.

(** [str(n)] for an [int]. *)
Definition str_of_int (n : Z) : pystr :=
  map N_of_ascii
      (list_ascii_of_string (DecimalString.NilZero.string_of_int (Z.to_int n))).

End Text.
Import Text.

(** ** Exceptions *)

Inductive exn :=
| FileNotFoundError
| PermissionError
| IsADirectoryError
| ZeroDivisionError
| OverflowError
| TemplateError
| OtherError (name : string).

Inductive result (A : Type) :=
| Ok (a : A)
| Raise (e : exn).
Arguments Ok {A} a.
Arguments Raise {A} e.

Definition bind {A B} (r : result A) (k : A -> result B) : result B :=
  match r with
  | Ok a => k a
  | Raise e => Raise e
  end.

Notation "x <- r ;; k" := (bind r (fun x => k))
  (at level 61, r at next level, right associativity).

(** ** The replacement template of [re.sub]

    [re.sub(pattern, repl, string)] with a string [repl] first compiles
    [repl] as a template (CPython's [re._parser.parse_template]), also
    when the pattern matches nowhere.  The pattern here has no capture
    group, so the only valid group reference is group 0, the whole match.
    The compiler is written as a one-character-at-a-time automaton; every
    exception it can raise is [TemplateError].  Group names follow
    Python 3.12: ASCII decimal digits only. *)

Module Template.

Inductive piece :=
| PLit (c : char)
| PGroup0.

Inductive mode :=
| TNormal                   (* between tokens *)
| TEsc                      (* after a backslash *)
| TG                        (* after \g, a < must follow *)
| TName (nonempty : bool)   (* inside \g<, only 0s read so far *)
| TOct0 (k : nat) (v : N)   (* after \0 and k octal digits of value v *)
| TDig1 (c1 : char)         (* after \c1, c1 in 1..9 *)
| TDig2 (c1 c2 : char).     (* after \c1c2, both digits *)

Definition is_digit (c : char) : bool := (48 <=? c)%N && (c <=? 57)%N.
Definition is_octdigit (c : char) : bool := (48 <=? c)%N && (c <=? 55)%N.
Definition is_ascii_letter (c : char) : bool :=
  ((65 <=? c)%N && (c <=? 90)%N) || ((97 <=? c)%N && (c <=? 122)%N).

(** The table [ESCAPES]: \a \b \f \n \r \t \v and the backslash itself. *)
Definition escapes (c : char) : option char :=
  if (c =? 97)%N then Some 7%N
  else if (c =? 98)%N then Some 8%N
  else if (c =? 102)%N then Some 12%N
  else if (c =? 110)%N then Some 10%N
  else if (c =? 114)%N then Some 13%N
  else if (c =? 116)%N then Some 9%N
  else if (c =? 118)%N then Some 11%N
  else if (c =? 92)%N then Some 92%N
  else None.

Definition step_normal (c : char) : mode * list piece :=
  if (c =? backslash)%N then (TEsc, []) else (TNormal, [PLit c]).

Definition step (m : mode) (c : char) : option (mode * list piece) :=
  match m with
  | TNormal => Some (step_normal c)
  | TEsc =>
      if (c =? 103)%N then Some (TG, [])
      else if (c =? 48)%N then Some (TOct0 0 0%N, [])
      else if is_digit c then Some (TDig1 c, [])
      else match escapes c with
           | Some e => Some (TNormal, [PLit e])
           | None =>
               if is_ascii_letter c then None
               else Some (TNormal, [PLit backslash; PLit c])
           end
  | TG => if (c =? 60)%N then Some (TName false, []) else None
  | TName nonempty =>
      if (c =? 48)%N then Some (TName true, [])
      else if (c =? 62)%N then
        if nonempty then Some (TNormal, [PGroup0]) else None
      else None
  | TOct0 k v =>
      if is_octdigit c then
        let v' := (v * 8 + (c - 48))%N in
        match k with
        | O => Some (TOct0 1 v', [])
        | S _ => Some (TNormal, [PLit (N.land v' 255)])
        end
      else
        let '(m', out) := step_normal c in
        Some (m', PLit (N.land v 255) :: out)
  | TDig1 c1 => if is_digit c then Some (TDig2 c1 c, []) else None
  | TDig2 c1 c2 =>
      if is_octdigit c1 && is_octdigit c2 && is_octdigit c then
        let v := ((c1 - 48) * 64 + (c2 - 48) * 8 + (c - 48))%N in
        if (255 <? v)%N then None else Some (TNormal, [PLit v])
      else None
  end.

Definition finish (m : mode) : option (list piece) :=
  match m with
  | TNormal => Some []
  | TOct0 _ v => Some [PLit (N.land v 255)]
  | TEsc | TG | TName _ | TDig1 _ | TDig2 _ _ => None
  end.

Fixpoint parse (m : mode) (s : pystr) : option (list piece) :=
  match s with
  | [] => finish m
  | c :: s' =>
      match step m c with
      | None => None
      | Some (m', out) =>
          match parse m' s' with
          | None => None
          | Some ps => Some (out ++ ps)
          end
      end
  end.

Definition parse_template (repl : pystr) : result (list piece) :=
  match parse TNormal repl with
  | Some ps => Ok ps
  | None => Raise TemplateError
  end.

(** Expansion of a compiled template for the matched text [m]. *)
Fixpoint expand (ps : list piece) (m : pystr) : pystr :=
  match ps with
  | [] => []
  | PLit c :: ps' => c :: expand ps' m
  | PGroup0 :: ps' => m ++ expand ps' m
  end.

End Template.

(** ** The document splicer: [update_readme] *)

Definition start_marker : pystr :=
  Eval vm_compute in utf8 "<!-- LANGUAGE_STATS_START -->".
Definition end_marker : pystr :=
  Eval vm_compute in utf8 "<!-- LANGUAGE_STATS_END -->".
Definition arrow : pystr := Eval vm_compute in utf8 "-->".
Definition title_line : pystr :=
  Eval vm_compute in utf8 "## 📊 使用言語統計".
Definition section_title : pystr := nl :: title_line ++ [nl; nl].
Definition default_content : pystr :=
  Eval vm_compute in utf8 "# GitHub Profile" ++ [nl; nl].

(** [f"{start_marker}\n## 📊 使用言語統計\n\n{stats_markdown}\n\n{end_marker}"] *)
Definition stats_section (stats_markdown : pystr) : pystr :=
  start_marker ++ section_title ++ stats_markdown ++ [nl; nl] ++ end_marker.

(** The pattern [re.escape(start_marker) + ".*?" + re.escape(end_marker)]
    under [re.DOTALL], anchored at the head of [s]: the start marker, then
    the fewest characters of any kind, then the end marker.  Returns the
    length of the match. *)
Definition match_at (s : pystr) : option nat :=
  if startswith start_marker s then
    match str_find end_marker (skipn (length start_marker) s) with
    | Some j => Some (length start_marker + j + length end_marker)
    | None => None
    end
  else None.

(** [re.sub] scans left to right; at each position outside a previous
    match it tries the pattern, replaces a match by the expanded template
    and resumes after it.  [skip] counts characters still inside the last
    match. *)
Fixpoint re_sub (repl : pystr -> pystr) (skip : nat) (s : pystr) : pystr :=
  match s with
  | [] => []
  | c :: s' =>
      match skip with
      | S k => re_sub repl k s'
      | O =>
          match match_at s with
          | Some n => repl (firstn n s) ++ re_sub repl (n - 1) s'
          | None => c :: re_sub repl 0 s'
          end
      end
  end.

(** Lines 144-161: the text transformation of [update_readme]. *)
Definition update_content (stats_markdown content : pystr) : result pystr :=
  let section := stats_section stats_markdown in
  if str_in start_marker content && str_in end_marker content then
    ps <- Template.parse_template section ;;
    Ok (re_sub (Template.expand ps) 0 content)
  else if str_in arrow content then
    let parts := rsplit_1 arrow content in
    Ok (nth 0 parts [] ++ arrow ++ [nl; nl] ++ section ++ nth 1 parts [])
  else
    Ok (content ++ [nl; nl] ++ section).

(** A simple file system: what [open] finds at a path.  Every path is a
    cell of its own (no directories to create, no links), a file holds
    the text last written to it and a write is one step.  The general
    file system is that of [update_readme_with] below, of which this is
    one instance. *)
Inductive node :=
| Missing
| Directory
| File (readable writable : bool) (data : pystr).

Definition filesystem := pystr -> node.

(** [open(path, 'r').read()] on the simple file system *)
Definition read_file (fs : filesystem) (path : pystr) : result pystr :=
  match fs path with
  | Missing => Raise FileNotFoundError
  | Directory => Raise IsADirectoryError
  | File true _ data => Ok data
  | File false _ _ => Raise PermissionError
  end.

Definition fs_set (fs : filesystem) (path : pystr) (n : node) : filesystem :=
  fun p => if str_eqb p path then n else fs p.

(** [open(path, 'w').write(data)] on the simple file system *)
Definition write_file (fs : filesystem) (path data : pystr)
  : result filesystem :=
  match fs path with
  | Missing => Ok (fs_set fs path (File true true data))
  | Directory => Raise IsADirectoryError
  | File r true _ => Ok (fs_set fs path (File r true data))
  | File _ false _ => Raise PermissionError
  end.

(** [update_readme(stats_markdown, readme_path)] on the simple file
    system; the final [print] is not modelled. *)
Definition update_readme (stats_markdown readme_path : pystr)
  (fs : filesystem) : result filesystem :=
  content <- match read_file fs readme_path with
             | Raise FileNotFoundError => Ok default_content
             | r => r
             end ;;
  content' <- update_content stats_markdown content ;;
  write_file fs readme_path content'.

(** A replacement text without backslash, which CPython calls a literal
    template and inserts as it is. *)
Definition literal (t : pystr) : bool :=
  forallb (fun c => negb (c =? backslash)%N) t.

(** Running the splicer again on its own output. *)
Definition update_twice (stats_markdown content : pystr) : result pystr :=
  content' <- update_content stats_markdown content ;;
  update_content stats_markdown content'.

(** ** The language aggregator: [get_language_stats] *)

(** A [dict] from language name to byte count, in insertion order. *)
Definition dict := list (pystr * Z).

(** The fields of a repository record that the script reads. *)
Record repo := { fork : bool; languages_url : pystr }.

(** An HTTP response: its status and its decoded JSON body. *)
Record response (A : Type) := { status_code : Z; json : A }.
Arguments status_code {A} r.
Arguments json {A} r.

(** [language_bytes[lang] += bytes_count] on a [defaultdict(int)]. *)
Fixpoint dict_add (lang : pystr) (bytes_count : Z) (d : dict) : dict :=
  match d with
  | [] => [(lang, (0 + bytes_count)%Z)]
  | (k, v) :: d' =>
      if str_eqb k lang then (k, (v + bytes_count)%Z) :: d'
      else (k, v) :: dict_add lang bytes_count d'
  end.

(** Lines 62-63: the loop over [languages.items()]. *)
Definition add_languages (languages language_bytes : dict) : dict :=
  fold_left (fun acc kv => dict_add (fst kv) (snd kv) acc)
            languages language_bytes.

Section Aggregator.

(** The state of everything outside the script, and the server's answers
    to the two kinds of request ([headers] and the user name are fixed
    for a run). *)
Variable world : Type.
Variable get_repos : Z -> world -> response (list repo) * world.
Variable get_languages : pystr -> world -> response dict * world.

(** Lines 53-63: the loop over [all_repos]. *)
Fixpoint aggregate (all_repos : list repo) (language_bytes : dict)
  (w : world) : dict * world :=
  match all_repos with
  | [] => (language_bytes, w)
  | repo :: rest =>
      if fork repo then aggregate rest language_bytes w
      else
        let '(response, w') := get_languages (languages_url repo) w in
        if (status_code response =? 200)%Z then
          aggregate rest (add_languages (json response) language_bytes) w'
        else aggregate rest language_bytes w'
  end.

(** A repository qualifies in world [w] when it is not a fork and its
    language request succeeds there. *)
Definition qualifies (r : repo) (w : world) : Prop :=
  fork r = false /\
  status_code (fst (get_languages (languages_url r) w)) = 200%Z.

(** Lines 34-48: the pagination loop.  It runs until a page is empty, so
    the model takes [fuel]; [None] means the fuel ran out, [Some (None, _)]
    that a page request failed. *)
Fixpoint list_repos (fuel : nat) (page : Z) (all_repos : list repo)
  (w : world) : option (option (list repo) * world) :=
  match fuel with
  | O => None
  | S fuel' =>
      let '(response, w') := get_repos page w in
      if negb (status_code response =? 200)%Z then Some (None, w')
      else
        match json response with
        | [] => Some (Some all_repos, w')
        | repos => list_repos fuel' (page + 1)%Z (all_repos ++ repos) w'
        end
  end.

Definition get_language_stats (fuel : nat) (w : world)
  : option (option dict * world) :=
  match list_repos fuel 1%Z [] w with
  | None => None
  | Some (None, w') => Some (None, w')
  | Some (Some all_repos, w') =>
      let '(language_bytes, w'') := aggregate all_repos [] w' in
      Some (Some language_bytes, w'')
  end.

End Aggregator.

(** ** The percentage ranker: [calculate_percentages] *)

(** A ranked entry [(lang, percent, bytes_count)]. *)
Definition entry := (pystr * Q * Z)%type.

Definition lang_of (e : entry) : pystr := fst (fst e).
Definition percent_of (e : entry) : Q := snd (fst e).
Definition bytes_of (e : entry) : Z := snd e.

(** [sum(language_bytes.values())] *)
Definition sum_values (d : dict) : Z :=
  fold_left (fun acc kv => (acc + snd kv)%Z) d 0%Z.

(** [(lang, (bytes_count / total_bytes) * 100, bytes_count)] *)
Definition make_entry (total_bytes : Z) (kv : pystr * Z) : entry :=
  (fst kv, (inject_Z (snd kv) / inject_Z total_bytes * 100)%Q, snd kv).

(** [percentages.sort(key=lambda x: x[1], reverse=True)]: a stable sort,
    larger percentages first, equal percentages in their former order. *)
Fixpoint insert_desc (x : entry) (l : list entry) : list entry :=
  match l with
  | [] => [x]
  | y :: l' =>
      if Qle_bool (percent_of y) (percent_of x) then x :: l
      else y :: insert_desc x l'
  end.

Definition sort_desc (l : list entry) : list entry :=
  fold_right insert_desc [] l.

Definition calculate_percentages (language_bytes : dict)
  : result (list entry) :=
  match language_bytes with
  | [] => Ok []
  | _ :: _ =>
      let total_bytes := sum_values language_bytes in
      if (total_bytes =? 0)%Z then Raise ZeroDivisionError
      else Ok (sort_desc (map (make_entry total_bytes) language_bytes))
  end.

(** The sum of the percentages of a ranked sequence. *)
Definition sum_percent (l : list entry) : Q :=
  fold_right (fun e acc => (percent_of e + acc)%Q) 0%Q l.

(** ** The table renderer: [format_stats_markdown] *)

(** [int(x)] for a float: truncation towards zero. *)
Definition int_of_float (x : Q) : Z := Z.quot (Qnum x) (Zpos (Qden x)).

(** The integer nearest to [x], ties going to the even one. *)
Definition round_half_even (x : Q) : Z :=
  let q := (Qnum x / Zpos (Qden x))%Z in
  let r := (Qnum x mod Zpos (Qden x))%Z in
  match (2 * r ?= Zpos (Qden x))%Z with
  | Lt => q
  | Gt => (q + 1)%Z
  | Eq => if Z.even q then q else (q + 1)%Z
  end.

(** The digits of a non-negative number of hundredths [k]. *)
Definition two_decimals (k : Z) : pystr :=
  str_of_int (k / 100) ++ [46%N; digit (k / 10 mod 10); digit (k mod 10)].

(** [f"{x:.2f}"] *)
Definition format_2f (x : Q) : pystr :=
  if Qle_bool 0 x then two_decimals (round_half_even (x * 100))
  else 45%N :: two_decimals (round_half_even (- x * 100)).

Definition filled_glyph : char := Eval vm_compute in hd 0%N (utf8 "█").
Definition empty_glyph : char := Eval vm_compute in hd 0%N (utf8 "░").

(** [2 ^ k] for [k >= 0], and 1 otherwise. *)
Definition pow2 (k : Z) : Z := (2 ^ Z.max 0 k)%Z.

(** [floor (log2 (a / b))] for positive [a] and [b]. *)
Definition ilog2 (a b : Z) : Z :=
  let k := (Z.log2 a - Z.log2 b)%Z in
  if (b * pow2 k <=? a * pow2 (- k))%Z then k else (k - 1)%Z.

(** The double nearest to [x] (binary64: 53 bits, exponents down to
    -1074, ties to even), as a rational; a result of [2 ^ 1024] or more
    does not fit. *)
Definition round_to_double (x : Q) : result Q :=
  let a := Z.abs (Qnum x) in
  let b := Zpos (Qden x) in
  if (a =? 0)%Z then Ok 0%Q
  else
    let e := Z.max (ilog2 a b - 52) (-1074) in
    let m :=
      round_half_even (Qmake (a * pow2 (- e)) (Z.to_pos (b * pow2 e))) in
    if (2 ^ 1024 * pow2 (- e) <=? m * pow2 e)%Z then Raise OverflowError
    else Ok (Qmake (Z.sgn (Qnum x) * m * pow2 e) (Z.to_pos (pow2 (- e)))).

(** [a / b] for two [int]s: the correctly rounded quotient. *)
Definition true_div (a b : Z) : result Q :=
  if (b =? 0)%Z then Raise ZeroDivisionError
  else round_to_double (inject_Z a / inject_Z b)%Q.

(** Lines 112-117: the size in human units. *)
Definition size_str (bytes_count : Z) : result pystr :=
  if (1024 * 1024 <=? bytes_count)%Z then
    q <- true_div bytes_count (1024 * 1024) ;;
    Ok (format_2f q ++ utf8 " MB")
  else if (1024 <=? bytes_count)%Z then
    q <- true_div bytes_count 1024 ;;
    Ok (format_2f q ++ utf8 " KB")
  else Ok (str_of_int bytes_count ++ utf8 " bytes").

(** Lines 120-122: the progress bar. *)
Definition bar (percent : Q) : pystr :=
  let bar_length := 20%Z in
  let filled_length :=
    int_of_float (inject_Z bar_length * percent / 100) in
  str_mul filled_glyph filled_length
  ++ str_mul empty_glyph (bar_length - filled_length).

(** Lines 111-124: one pass of the loop, giving one table row. *)
Definition format_row (e : entry) : result pystr :=
  size <- size_str (bytes_of e) ;;
  Ok (utf8 "| " ++ lang_of e ++ utf8 " | " ++ format_2f (percent_of e)
      ++ utf8 "% " ++ bar (percent_of e) ++ utf8 " | " ++ size
      ++ utf8 " |" ++ [nl]).

Definition no_data : pystr := Eval vm_compute in utf8 "統計データがありません。".
Definition table_header : pystr :=
  Eval vm_compute in
    utf8 "| 言語 | 使用割合 | コード量 |" ++ [nl]
    ++ utf8 "|------|----------|----------|" ++ [nl].

Definition format_stats_markdown (percentages : list entry)
  : result pystr :=
  match percentages with
  | [] => Ok no_data
  | _ :: _ =>
      fold_left (fun acc e =>
                   markdown <- acc ;;
                   row <- format_row e ;;
                   Ok (markdown ++ row))
                percentages (Ok table_header)
  end.

(** ** Reading decimal numerals *)

(** The value of a decimal digit character. *)
Definition digit_value (c : char) : option Z :=
  if (48 <=? c)%N && (c <=? 57)%N then Some (Z.of_N c - 48)%Z else None.

Fixpoint digits_value (acc : Z) (s : pystr) : option Z :=
  match s with
  | [] => Some acc
  | c :: s' =>
      match digit_value c with
      | Some d => digits_value (10 * acc + d)%Z s'
      | None => None
      end
  end.

(** The natural number that [s] writes in decimal, without sign and
    without leading zeros. *)
Definition read_nat (s : pystr) : option Z :=
  match s with
  | [] => None
  | [c] => digit_value c
  | c :: _ => if (c =? 48)%N then None else digits_value 0 s
  end.

(** The number of hundredths that [s] writes as a numeral with a point
    and exactly two decimals. *)
Definition read_hundredths (s : pystr) : option Z :=
  match rev s with
  | c2 :: c1 :: dot :: int_part =>
      if (dot =? 46)%N then
        match read_nat (rev int_part), digit_value c1, digit_value c2 with
        | Some i, Some a, Some b => Some (100 * i + 10 * a + b)%Z
        | _, _, _ => None
        end
      else None
  | _ => None
  end.

(** The value of the standard library's decimal numbers, and their
    characters. *)
Fixpoint uint_value (acc : Z) (u : Decimal.uint) : Z :=
  match u with
  | Decimal.Nil => acc
  | Decimal.D0 l => uint_value (10 * acc + 0) l
  | Decimal.D1 l => uint_value (10 * acc + 1) l
  | Decimal.D2 l => uint_value (10 * acc + 2) l
  | Decimal.D3 l => uint_value (10 * acc + 3) l
  | Decimal.D4 l => uint_value (10 * acc + 4) l
  | Decimal.D5 l => uint_value (10 * acc + 5) l
  | Decimal.D6 l => uint_value (10 * acc + 6) l
  | Decimal.D7 l => uint_value (10 * acc + 7) l
  | Decimal.D8 l => uint_value (10 * acc + 8) l
  | Decimal.D9 l => uint_value (10 * acc + 9) l
  end%Z.

Definition chars_of_uint (u : Decimal.uint) : pystr :=
  map N_of_ascii (list_ascii_of_string (NilEmpty.string_of_uint u)).

(** ** [update_readme] on any file system *)

Section OperatingSystem.

(** The file system is whatever [open] makes of it: [fsys] is its state,
    [open_read path] is [open(path, 'r', encoding='utf-8')] followed by
    [f.read()], the text read or the exception raised, and [open_write
    path content] is [open(path, 'w', encoding='utf-8')] followed by
    [f.write(content)], with the state it leaves, also when it fails. *)
Variable fsys : Type.
Variable open_read : pystr -> fsys -> result pystr.
Variable open_write : pystr -> pystr -> fsys -> result unit * fsys.

(** [update_readme(stats_markdown, readme_path)], lines 137-165. *)
Definition update_readme_with (stats_markdown readme_path : pystr)
  (s : fsys) : result unit * fsys :=
  match match open_read readme_path s with
        | Raise FileNotFoundError => Ok default_content
        | r => r
        end with
  | Raise e => (Raise e, s)
  | Ok content =>
      match update_content stats_markdown content with
      | Raise e => (Raise e, s)
      | Ok content' => open_write readme_path content' s
      end
  end.

(** Recovery from any failure to read the document, as the specification
    words it: the default text is spliced and written. *)
Definition read_failure_recovered (t path : pystr) (s : fsys) : Prop :=
  forall e, open_read path s = Raise e ->
    update_readme_with t path s =
    open_write path (default_content ++ [nl; nl] ++ stats_section t) s.

End OperatingSystem.

(** The simple file system of [read_file] and [write_file] as one such
    file system: every file can be created, writes are atomic, the text
    read is the text written. *)
Definition simple_read (path : pystr) (fs : filesystem) : result pystr :=
  read_file fs path.

Definition simple_write (path content : pystr) (fs : filesystem)
  : result unit * filesystem :=
  match write_file fs path content with
  | Ok fs' => (Ok tt, fs')
  | Raise e => (Raise e, fs)
  end.

(** The size column as the specification words it: the count divided by
    the unit, with two decimals. *)
Definition size_in_units (n : Z) : Prop :=
  ((1048576 <= n)%Z ->
   exists k s,
     (2 * Z.abs (100 * n - k * 1048576) <= 1048576)%Z /\
     read_hundredths s = Some k /\
     size_str n = Ok (s ++ utf8 " MB")) /\
  ((1024 <= n < 1048576)%Z ->
   exists k s,
     (2 * Z.abs (100 * n - k * 1024) <= 1024)%Z /\
     read_hundredths s = Some k /\
     size_str n = Ok (s ++ utf8 " KB")) /\
  ((n < 1024)%Z ->
   exists s, read_nat s = Some n /\ size_str n = Ok (s ++ utf8 " bytes")).

(** What [update_readme] starts from: the file's text, or the default
    text when there is no file. *)
Definition old_content (fs : filesystem) (path : pystr) : pystr :=
  match fs path with
  | File _ _ data => data
  | _ => default_content
  end.

(** ** Reading the aggregated mapping *)

(** [language_bytes[lang]] on the [defaultdict(int)]: the count stored
    under [lang], 0 when the key is absent. *)
Fixpoint dict_get (lang : pystr) (d : dict) : Z :=
  match d with
  | [] => 0%Z
  | (k, v) :: d' => if str_eqb k lang then v else dict_get lang d'
  end.

(** The bytes that one language response reports for [lang]: what the
    loop over [languages.items()] adds under that key. *)
Definition bytes_for (lang : pystr) (languages : dict) : Z :=
  fold_right (fun kv acc => if str_eqb (fst kv) lang
                            then (snd kv + acc)%Z else acc) 0%Z languages.

Section AggregatorTrace.

Variable world : Type.
Variable get_languages : pystr -> world -> response dict * world.

(** The language responses that the loop of lines 53-63 uses, in order:
    those of the repositories that are not forks and answer with 200. *)
Fixpoint fetched (all_repos : list repo) (w : world) : list dict :=
  match all_repos with
  | [] => []
  | repo :: rest =>
      if fork repo then fetched rest w
      else
        let '(response, w') := get_languages (languages_url repo) w in
        if (status_code response =? 200)%Z
        then json response :: fetched rest w'
        else fetched rest w'
  end.

End AggregatorTrace.

(** ** Characters of the rendered table *)

(** The characters that the renderer writes by itself: digits, the minus
    sign and the point of numbers, the cell punctuation, the bar glyphs
    and the letters of the unit names. *)
Definition renderer_chars : pystr :=
  Eval vm_compute in
    utf8 "0123456789-.% |" ++ [filled_glyph; empty_glyph]
    ++ utf8 "MKBbytes".

(** A language name that can neither start an HTML comment nor a
    template escape. *)
Definition plain_char (c : char) : bool :=
  negb (c =? backslash)%N && negb (c =? 60)%N.

(** The splicer's behaviour as the specification words it, to be compared
    with [update_content] and [update_readme]. *)

(** Insertion directly behind the first [-->] of the document. *)
Definition inserted_after_first_arrow (t doc : pystr) : Prop :=
  forall i, str_find arrow doc = Some i ->
    update_content t doc =
    Ok (firstn (i + 3) doc ++ [nl; nl] ++ stats_section t
        ++ skipn (i + 3) doc).

(** Replacement of the first marker span and of nothing else. *)
Definition replaced_first_span_only (t doc : pystr) : Prop :=
  forall pre mid post,
    doc = pre ++ start_marker ++ mid ++ end_marker ++ post ->
    str_find start_marker doc = Some (length pre) ->
    str_find end_marker (mid ++ end_marker ++ post) = Some (length mid) ->
    update_content t doc = Ok (pre ++ stats_section t ++ post).

(** The ranker as the specification words it: every non-empty mapping is
    ranked. *)
Definition ranked_descending (l : list entry) : Prop :=
  StronglySorted (fun a b => (percent_of b <= percent_of a)%Q) l.

Definition ranks_every_mapping (d : dict) : Prop :=
  d <> [] ->
  exists r, calculate_percentages d = Ok r /\
            Permutation r (map (make_entry (sum_values d)) d) /\
            ranked_descending r.

(* ================================================================== *)
(** * Facts about text search *)

Lemma Ok_inj (A : Type) (a b : A) : Ok a = Ok b -> a = b.
Proof. congruence. Qed.

Section TextFacts.

Lemma startswith_app (p s : pystr) : startswith p (p ++ s) = true.
Proof.
  induction p as [|x p IH]; simpl; [reflexivity|].
  now rewrite N.eqb_refl.
Qed.

Lemma startswith_inv (p s : pystr) :
  startswith p s = true -> s = p ++ skipn (length p) s.
Proof.
  revert s; induction p as [|x p IH]; intros [|y s]; simpl; try easy.
  intros H; apply andb_true_iff in H as [Hxy Hp].
  apply N.eqb_eq in Hxy; subst y. f_equal. now apply IH.
Qed.

Lemma startswith_length (p s : pystr) :
  startswith p s = true -> length p <= length s.
Proof.
  revert s; induction p as [|x p IH]; intros [|y s]; simpl; try easy; try lia.
  intros H; apply andb_true_iff in H as [_ Hp]. apply IH in Hp. lia.
Qed.

(** Only the first [length p] characters matter. *)
Lemma startswith_window (p x y : pystr) :
  length p <= length x -> startswith p (x ++ y) = startswith p x.
Proof.
  revert x; induction p as [|c p IH]; intros [|d x]; simpl; try easy; try lia.
  intros H. f_equal. apply IH. lia.
Qed.

(** A pattern cannot match across a character it does not contain. *)
Lemma startswith_sep (p a b : pystr) (c : char) :
  ~ In c p -> startswith p (a ++ c :: b) = startswith p a.
Proof.
  revert a; induction p as [|x p IH]; intros a Hc; [now destruct a|].
  destruct a as [|y a]; simpl.
  - destruct (N.eqb_spec x c) as [->|]; [|reflexivity].
    exfalso; apply Hc; now left.
  - f_equal. apply IH. intros Hin; apply Hc; now right.
Qed.

Lemma str_find_unfold (p s : pystr) :
  str_find p s =
  if startswith p s then Some 0
  else match s with
       | [] => None
       | _ :: s' => option_map S (str_find p s')
       end.
Proof. now destruct s. Qed.

Lemma str_find_bound (p s : pystr) (i : nat) :
  str_find p s = Some i -> i + length p <= length s.
Proof.
  revert i; induction s as [|c s IH]; intros i; rewrite str_find_unfold.
  - destruct (startswith p []) eqn:Hp; [|discriminate].
    intros [= <-]. now apply startswith_length in Hp.
  - destruct (startswith p (c :: s)) eqn:Hp.
    + intros [= <-]. now apply startswith_length in Hp.
    + destruct (str_find p s) as [j|]; [|discriminate].
      simpl. intros [= <-]. specialize (IH j eq_refl). simpl; lia.
Qed.

Lemma str_find_Some (p s : pystr) (i : nat) :
  str_find p s = Some i ->
  s = firstn i s ++ p ++ skipn (i + length p) s /\
  forall j, j < i -> startswith p (skipn j s) = false.
Proof.
  revert i; induction s as [|c s IH]; intros i; rewrite str_find_unfold.
  - destruct (startswith p []) eqn:Hp; [|discriminate].
    intros [= <-]. split; [|lia]. now apply startswith_inv in Hp.
  - destruct (startswith p (c :: s)) eqn:Hp.
    + intros [= <-]. split; [|lia]. now apply startswith_inv in Hp.
    + destruct (str_find p s) as [k|]; [|discriminate].
      simpl. intros [= <-]. destruct (IH k eq_refl) as [Hs Hj].
      split; [simpl; now f_equal|].
      intros [|j] Hlt; [exact Hp|]. simpl. apply Hj. lia.
Qed.

Lemma str_find_None (p s : pystr) (j : nat) :
  str_find p s = None -> startswith p (skipn j s) = false.
Proof.
  revert j; induction s as [|c s IH]; intros j; rewrite str_find_unfold.
  - destruct (startswith p []) eqn:Hp; [discriminate|].
    now destruct j.
  - destruct (startswith p (c :: s)) eqn:Hp; [discriminate|].
    destruct (str_find p s); [discriminate|]. intros _.
    destruct j as [|j]; [exact Hp|]. simpl. now apply IH.
Qed.

(** The first occurrence is where [str_find] stops. *)
Lemma str_find_first (p a b : pystr) :
  (forall j, j < length a -> startswith p (skipn j (a ++ p ++ b)) = false) ->
  str_find p (a ++ p ++ b) = Some (length a).
Proof.
  induction a as [|c a IH]; intros H.
  - simpl app. rewrite str_find_unfold, startswith_app. reflexivity.
  - change ((c :: a) ++ p ++ b) with (c :: a ++ p ++ b) in *.
    rewrite str_find_unfold.
    assert (H0 := H 0 ltac:(simpl; lia)). simpl skipn in H0. rewrite H0.
    rewrite IH; [reflexivity|].
    intros j Hj. apply (H (S j)). simpl; lia.
Qed.

Lemma str_find_app_Some (p a b : pystr) (i : nat) :
  str_find p a = Some i -> str_find p (a ++ b) = Some i.
Proof.
  revert i; induction a as [|c a IH]; intros i Hi.
  - rewrite str_find_unfold in Hi.
    destruct (startswith p []) eqn:Hp; [|discriminate].
    destruct p; [|discriminate]. injection Hi as <-. now destruct b.
  - assert (Hb := str_find_bound _ _ _ Hi).
    rewrite str_find_unfold in Hi.
    change ((c :: a) ++ b) with (c :: a ++ b). rewrite str_find_unfold.
    destruct (startswith p (c :: a)) eqn:Hp.
    + injection Hi as <-.
      change (c :: a ++ b) with ((c :: a) ++ b).
      rewrite startswith_window, Hp; [reflexivity|].
      now apply startswith_length.
    + destruct (str_find p a) as [k|] eqn:Hk; [|discriminate].
      simpl in Hi. injection Hi as <-. rewrite (IH k eq_refl).
      apply str_find_bound in Hk.
      change (c :: a ++ b) with ((c :: a) ++ b).
      rewrite startswith_window, Hp by (simpl; lia). reflexivity.
Qed.

Lemma str_find_at (p s : pystr) (i : nat) :
  str_find p s = Some i -> startswith p (skipn i s) = true.
Proof.
  revert i; induction s as [|c s IH]; intros i; rewrite str_find_unfold.
  - destruct (startswith p []) eqn:Hp; [|discriminate]. now intros [= <-].
  - destruct (startswith p (c :: s)) eqn:Hp; [now intros [= <-]|].
    destruct (str_find p s) as [k|]; [|discriminate].
    simpl. intros [= <-]. now apply IH.
Qed.

Lemma skipn_length_app (A : Type) (a b : list A) :
  skipn (length a) (a ++ b) = b.
Proof. induction a; simpl; auto. Qed.

Lemma firstn_length_app (A : Type) (a b : list A) :
  firstn (length a) (a ++ b) = a.
Proof. induction a; simpl; f_equal; auto. Qed.

Lemma skipn_add_app (A : Type) (a b : list A) (j : nat) :
  skipn (length a + j) (a ++ b) = skipn j b.
Proof. induction a; simpl; auto. Qed.

Lemma skipn_lt_app (A : Type) (a b : list A) (j : nat) :
  j <= length a -> skipn j (a ++ b) = skipn j a ++ b.
Proof.
  revert j; induction a as [|x a IH]; intros [|j]; simpl; try easy; try lia.
  intros H. apply IH. lia.
Qed.

Lemma str_in_mid (p a b : pystr) : str_in p (a ++ p ++ b) = true.
Proof.
  unfold str_in. destruct (str_find p (a ++ p ++ b)) eqn:H; [reflexivity|].
  apply (str_find_None _ _ (length a)) in H.
  now rewrite skipn_length_app, startswith_app in H.
Qed.

Lemma str_in_false_app (p a b : pystr) :
  str_in p (a ++ b) = false -> str_in p a = false /\ str_in p b = false.
Proof.
  unfold str_in. destruct (str_find p (a ++ b)) eqn:H; [discriminate|].
  intros _. split.
  - destruct (str_find p a) eqn:Ha; [|reflexivity].
    apply (str_find_app_Some _ _ b) in Ha. congruence.
  - destruct (str_find p b) eqn:Hb; [|reflexivity].
    apply str_find_at in Hb.
    apply (str_find_None _ _ (length a + n)) in H.
    rewrite skipn_add_app in H. congruence.
Qed.

Lemma str_find_skipn_None (p s : pystr) (k : nat) :
  str_find p s = None -> str_find p (skipn k s) = None.
Proof.
  intros H. destruct (str_find p (skipn k s)) eqn:Hk; [|reflexivity].
  apply str_find_at in Hk. rewrite skipn_skipn in Hk.
  now rewrite (str_find_None _ _ _ H) in Hk.
Qed.

(** Across a separator character that the pattern does not contain, the
    search splits into a search on each side. *)
Lemma str_find_sep (p a b : pystr) (c : char) :
  ~ In c p -> p <> [] ->
  str_find p (a ++ c :: b) =
  match str_find p a with
  | Some i => Some i
  | None => option_map (fun j => length a + 1 + j) (str_find p b)
  end.
Proof.
  intros Hc Hp. induction a as [|y a IH].
  - simpl app. rewrite (str_find_unfold p (c :: b)), (str_find_unfold p []).
    change (c :: b) with ([] ++ c :: b). rewrite (startswith_sep p [] b c Hc).
    destruct p as [|x p]; [congruence|]. simpl.
    now destruct (str_find (x :: p) b).
  - change ((y :: a) ++ c :: b) with (y :: a ++ c :: b).
    rewrite (str_find_unfold p (y :: a ++ c :: b)).
    rewrite (str_find_unfold p (y :: a)).
    change (y :: a ++ c :: b) with ((y :: a) ++ c :: b).
    rewrite (startswith_sep p (y :: a) b c Hc).
    destruct (startswith p (y :: a)); [reflexivity|].
    rewrite IH. destruct (str_find p a); [reflexivity|].
    now destruct (str_find p b).
Qed.

(** Where the first occurrence lies depends only on the text up to its
    end. *)
Lemma str_find_stable (p a b b' : pystr) :
  str_find p (a ++ p ++ b) = Some (length a) ->
  str_find p (a ++ p ++ b') = Some (length a).
Proof.
  intros H. apply str_find_Some in H as [_ H].
  apply str_find_first. intros j Hj. specialize (H j Hj).
  rewrite app_assoc in *.
  rewrite skipn_lt_app in * by (rewrite length_app; lia).
  rewrite startswith_window in *
    by (rewrite length_skipn, length_app; lia).
  exact H.
Qed.

Lemma rpartition_None (sep s : pystr) (j : nat) :
  sep <> [] -> rpartition sep s = None -> startswith sep (skipn j s) = false.
Proof.
  intros Hsep. revert j; induction s as [|c s IH]; intros j.
  - intros _. destruct sep; [congruence|]. now destruct j.
  - simpl rpartition. destruct (rpartition sep s) as [[a b]|]; [discriminate|].
    destruct (startswith sep (c :: s)) eqn:Hp; [discriminate|]. intros _.
    destruct j as [|j]; [exact Hp|]. simpl. now apply IH.
Qed.

(** [rpartition] cuts at the last occurrence of the separator. *)
Lemma rpartition_Some (sep s a b : pystr) :
  sep <> [] -> rpartition sep s = Some (a, b) ->
  s = a ++ sep ++ b /\
  forall j, length a < j -> startswith sep (skipn j s) = false.
Proof.
  intros Hsep. revert a; induction s as [|c s IH]; intros a; [discriminate|].
  simpl rpartition. destruct (rpartition sep s) as [[a' b']|] eqn:Hr.
  - intros [= <- <-]. destruct (IH a' eq_refl) as [Hs Hj]. split.
    + simpl. now f_equal.
    + intros [|j] Hlt; simpl in *; [lia|]. apply Hj. lia.
  - destruct (startswith sep (c :: s)) eqn:Hp; [|discriminate].
    intros [= <- <-]. split; [now apply startswith_inv in Hp|].
    intros [|j] Hlt; simpl in *; [lia|]. now apply rpartition_None.
Qed.

Lemma rpartition_in (sep s : pystr) :
  sep <> [] -> str_in sep s = true ->
  exists a b, rpartition sep s = Some (a, b).
Proof.
  intros Hsep Hin. destruct (rpartition sep s) as [[a b]|] eqn:Hr; [eauto|].
  unfold str_in in Hin. destruct (str_find sep s) eqn:Hf; [|discriminate].
  apply str_find_at in Hf. now rewrite rpartition_None in Hf.
Qed.

End TextFacts.

(** * Facts about the markers and the substitution *)

Section SpliceFacts.

Lemma not_In_char (c : char) (l : pystr) :
  forallb (fun x => negb (x =? c)%N) l = true -> ~ In c l.
Proof.
  intros H Hin. rewrite forallb_forall in H. specialize (H c Hin).
  now rewrite N.eqb_refl in H.
Qed.

Lemma length_start_marker : length start_marker = 29.
Proof. reflexivity. Qed.

Lemma length_end_marker : length end_marker = 27.
Proof. reflexivity. Qed.

Lemma nl_not_in_start : ~ In nl start_marker.
Proof. now apply not_In_char. Qed.

Lemma nl_not_in_end : ~ In nl end_marker.
Proof. now apply not_In_char. Qed.

Lemma start_marker_nonempty : start_marker <> [].
Proof. discriminate. Qed.

Lemma end_marker_nonempty : end_marker <> [].
Proof. discriminate. Qed.

Lemma arrow_nonempty : arrow <> [].
Proof. discriminate. Qed.

Arguments match_at : simpl never.

Lemma match_at_Some (s : pystr) (n : nat) :
  match_at s = Some n ->
  exists j, startswith start_marker s = true /\
            str_find end_marker (skipn 29 s) = Some j /\
            n = 29 + j + 27.
Proof.
  unfold match_at. rewrite length_start_marker, length_end_marker.
  destruct (startswith start_marker s); [|discriminate].
  destruct (str_find end_marker (skipn 29 s)) as [j|]; [|discriminate].
  intros [= <-]. now exists j.
Qed.

Lemma match_at_None (s : pystr) :
  startswith start_marker s = false -> match_at s = None.
Proof. unfold match_at. now intros ->. Qed.

Lemma re_sub_cons (repl : pystr -> pystr) (c : char) (s : pystr) :
  re_sub repl 0 (c :: s) =
  match match_at (c :: s) with
  | Some n => repl (firstn n (c :: s)) ++ re_sub repl (n - 1) s
  | None => c :: re_sub repl 0 s
  end.
Proof. reflexivity. Qed.

Lemma re_sub_ext (f g : pystr -> pystr) (k : nat) (s : pystr) :
  (forall m, f m = g m) -> re_sub f k s = re_sub g k s.
Proof.
  intros Hfg. revert k; induction s as [|c s IH]; intros k; [reflexivity|].
  destruct k as [|k]; [|apply IH].
  rewrite !re_sub_cons. destruct (match_at (c :: s)).
  - now rewrite Hfg, IH.
  - now rewrite IH.
Qed.

Lemma re_sub_skip (repl : pystr -> pystr) (k : nat) (s : pystr) :
  re_sub repl k s = re_sub repl 0 (skipn k s).
Proof.
  revert k; induction s as [|c s IH]; intros [|k]; try reflexivity.
  simpl. apply IH.
Qed.

(** Text before the first start marker is copied. *)
Lemma re_sub_prefix (repl : pystr -> pystr) (a y : pystr) :
  (forall j, j < length a ->
             startswith start_marker (skipn j (a ++ y)) = false) ->
  re_sub repl 0 (a ++ y) = a ++ re_sub repl 0 y.
Proof.
  induction a as [|c a IH]; intros H; [reflexivity|].
  change ((c :: a) ++ y) with (c :: a ++ y) in *.
  rewrite re_sub_cons, match_at_None by (apply (H 0); simpl; lia).
  rewrite IH; [reflexivity|].
  intros j Hj. apply (H (S j)). simpl; lia.
Qed.

(** A match is replaced and the scan resumes after it. *)
Lemma re_sub_match (repl : pystr -> pystr) (s : pystr) (n : nat) :
  match_at s = Some n ->
  re_sub repl 0 s = repl (firstn n s) ++ re_sub repl 0 (skipn n s).
Proof.
  intros H. destruct (match_at_Some _ _ H) as (j & Hp & _ & ->).
  destruct s as [|c s]; [discriminate|].
  rewrite re_sub_cons, H, re_sub_skip. reflexivity.
Qed.

(** Without an end marker ahead nothing matches. *)
Lemma re_sub_no_end (repl : pystr -> pystr) (s : pystr) :
  str_find end_marker (skipn 29 s) = None -> re_sub repl 0 s = s.
Proof.
  induction s as [|c s IH]; intros H; [reflexivity|].
  rewrite re_sub_cons.
  destruct (match_at (c :: s)) as [n|] eqn:Hm.
  - apply match_at_Some in Hm as (j & _ & Hj & _). congruence.
  - f_equal. apply IH.
    apply (str_find_skipn_None _ _ 1) in H.
    rewrite skipn_skipn in H. exact H.
Qed.

(** The first span, from the first start marker to the first end marker
    after it, is replaced; the scan continues behind it. *)
Lemma re_sub_span (repl : pystr -> pystr) (pre mid post : pystr) :
  str_find start_marker (pre ++ start_marker ++ mid ++ end_marker ++ post)
  = Some (length pre) ->
  str_find end_marker (mid ++ end_marker ++ post) = Some (length mid) ->
  re_sub repl 0 (pre ++ start_marker ++ mid ++ end_marker ++ post) =
  pre ++ repl (start_marker ++ mid ++ end_marker) ++ re_sub repl 0 post.
Proof.
  intros Hs He. apply str_find_Some in Hs as [_ Hs].
  rewrite re_sub_prefix by exact Hs. f_equal.
  assert (Hm : match_at (start_marker ++ mid ++ end_marker ++ post)
               = Some (length (start_marker ++ mid ++ end_marker))).
  { unfold match_at. rewrite startswith_app, skipn_length_app, He.
    rewrite !length_app. f_equal; lia. }
  rewrite (re_sub_match _ _ _ Hm). f_equal.
  - f_equal. replace (start_marker ++ mid ++ end_marker ++ post)
      with ((start_marker ++ mid ++ end_marker) ++ post)
      by now rewrite <- !app_assoc.
    apply firstn_length_app.
  - f_equal. replace (start_marker ++ mid ++ end_marker ++ post)
      with ((start_marker ++ mid ++ end_marker) ++ post)
      by now rewrite <- !app_assoc.
    apply skipn_length_app.
Qed.

(** Either no span exists and the text is unchanged, or the text splits
    around its first span. *)
Lemma re_sub_cases (repl : pystr -> pystr) (s : pystr) :
  re_sub repl 0 s = s \/
  exists pre mid post,
    s = pre ++ start_marker ++ mid ++ end_marker ++ post /\
    str_find start_marker s = Some (length pre) /\
    str_find end_marker (mid ++ end_marker ++ post) = Some (length mid).
Proof.
  destruct (str_find start_marker s) as [i|] eqn:Hs.
  - assert (Hb := str_find_bound _ _ _ Hs).
    destruct (str_find_Some _ _ _ Hs) as [Hsplit Hfirst].
    set (rest := skipn (i + length start_marker) s) in *.
    assert (Hi : length (firstn i s) = i) by (rewrite length_firstn; lia).
    destruct (str_find end_marker rest) as [j|] eqn:He.
    + right. assert (Hb' := str_find_bound _ _ _ He).
      destruct (str_find_Some _ _ _ He) as [Hsplit' _].
      exists (firstn i s), (firstn j rest),
        (skipn (j + length end_marker) rest).
      assert (Hj : length (firstn j rest) = j)
        by (rewrite length_firstn; lia).
      rewrite Hi, Hj, <- Hsplit'. auto.
    + left. rewrite Hsplit at 1. rewrite re_sub_prefix.
      * rewrite re_sub_no_end; [now rewrite <- Hsplit|].
        rewrite <- length_start_marker, skipn_length_app. exact He.
      * rewrite <- Hsplit, Hi. exact Hfirst.
  - left. rewrite <- (app_nil_r s) at 1. rewrite re_sub_prefix.
    + simpl. now rewrite app_nil_r.
    + intros j _. rewrite app_nil_r. now apply str_find_None.
Qed.

End SpliceFacts.

(** * Facts about replacement templates *)

Section TemplateFacts.
Import Template.

Lemma literal_app (a b : pystr) :
  literal (a ++ b) = literal a && literal b.
Proof. apply forallb_app. Qed.

Lemma expand_app (ps qs : list piece) (m : pystr) :
  expand (ps ++ qs) m = expand ps m ++ expand qs m.
Proof.
  induction ps as [|[c|] ps IH]; simpl; [reflexivity| |].
  - now rewrite IH.
  - now rewrite IH, app_assoc.
Qed.

Lemma expand_lits (x m : pystr) : expand (map PLit x) m = x.
Proof. induction x as [|c x IH]; simpl; [reflexivity|now rewrite IH]. Qed.

(** A backslash-free prefix of a template is copied piece by piece. *)
Lemma parse_literal_prefix (x y : pystr) :
  literal x = true ->
  parse TNormal (x ++ y) =
  match parse TNormal y with
  | Some ps => Some (map PLit x ++ ps)
  | None => None
  end.
Proof.
  induction x as [|c x IH]; intros H.
  - simpl. now destruct (parse TNormal y).
  - simpl in H. apply andb_true_iff in H as [Hc Hx].
    simpl. unfold step_normal.
    destruct (c =? backslash)%N; [discriminate|].
    rewrite (IH Hx). now destruct (parse TNormal y).
Qed.

Lemma parse_literal (x : pystr) :
  literal x = true -> parse_template x = Ok (map PLit x).
Proof.
  intros H. unfold parse_template.
  rewrite <- (app_nil_r x) at 1. rewrite (parse_literal_prefix _ _ H).
  simpl. now rewrite app_nil_r.
Qed.

(** Whatever precedes it, a blank line followed by the end marker at the
    end of a template is copied, or the template is rejected. *)
Lemma parse_end_marker (x : pystr) (m : mode) (ps : list piece) :
  parse m (x ++ [nl; nl] ++ end_marker) = Some ps ->
  exists ps', ps = ps' ++ map PLit end_marker.
Proof.
  revert m ps; induction x as [|c x IH]; intros m ps.
  - destruct m as [| | |ne|k v|c1|c1 c2]; simpl app; cbn [parse].
    + vm_compute. intros [= <-].
      now exists [PLit nl; PLit nl].
    + vm_compute. intros [= <-].
      now exists [PLit backslash; PLit nl; PLit nl].
    + vm_compute. discriminate.
    + vm_compute. discriminate.
    + change (step (TOct0 k v) nl)
        with (Some (TNormal, [PLit (N.land v 255); PLit nl])).
      change (parse TNormal (nl :: end_marker))
        with (Some (PLit nl :: map PLit end_marker)).
      intros [= <-].
      now exists [PLit (N.land v 255); PLit nl; PLit nl].
    + change (step (TDig1 c1) nl) with (@None (mode * list piece)).
      discriminate.
    + unfold step. change (is_octdigit nl) with false.
      rewrite andb_false_r. discriminate.
  - change ((c :: x) ++ [nl; nl] ++ end_marker)
      with (c :: x ++ [nl; nl] ++ end_marker).
    cbn [parse]. destruct (step m c) as [[m' out]|]; [|discriminate].
    destruct (parse m' (x ++ [nl; nl] ++ end_marker)) as [qs|] eqn:Hq;
      [|discriminate].
    intros [= <-]. destruct (IH _ _ Hq) as [ps' ->].
    exists (out ++ ps'). now rewrite app_assoc.
Qed.

End TemplateFacts.

(** * The splicer *)

Section Splicer.
Import Template.

Lemma title_line_no_end : str_find end_marker title_line = None.
Proof. reflexivity. Qed.

Lemma str_find_sep_None (p a b : pystr) (c : char) :
  ~ In c p -> p <> [] -> str_find p a = None ->
  str_find p (a ++ c :: b) =
  option_map (fun j => length a + 1 + j) (str_find p b).
Proof. intros Hc Hp Ha. now rewrite str_find_sep, Ha. Qed.

(** Inside a freshly built section the first end marker is its own. *)
Lemma find_end_in_section (t z : pystr) :
  str_in end_marker t = false ->
  str_find end_marker (section_title ++ t ++ [nl; nl] ++ end_marker ++ z)
  = Some (length (section_title ++ t ++ [nl; nl])).
Proof.
  intros Ht. unfold str_in in Ht.
  destruct (str_find end_marker t) eqn:Hf; [discriminate|].
  pose proof nl_not_in_end as Hn. pose proof end_marker_nonempty as He.
  unfold section_title.
  change ((nl :: title_line ++ [nl; nl]) ++
          t ++ [nl; nl] ++ end_marker ++ z)
    with ([] ++ nl :: ((title_line ++ [nl; nl]) ++
                        t ++ [nl; nl] ++ end_marker ++ z)).
  rewrite (str_find_sep_None _ [] _ _ Hn He eq_refl).
  replace ((title_line ++ [nl; nl]) ++ t ++ [nl; nl] ++ end_marker ++ z)
    with (title_line ++ nl :: ([] ++ nl ::
            (t ++ nl :: ([] ++ nl :: (end_marker ++ z)))))
    by (rewrite <- !app_assoc; reflexivity).
  rewrite (str_find_sep_None _ title_line _ _ Hn He title_line_no_end).
  rewrite (str_find_sep_None _ [] _ _ Hn He eq_refl).
  rewrite (str_find_sep_None _ t _ _ Hn He Hf).
  rewrite (str_find_sep_None _ [] _ _ Hn He eq_refl).
  rewrite (str_find_unfold end_marker (end_marker ++ z)), startswith_app.
  cbn [option_map]. f_equal. rewrite !length_app. simpl. lia.
Qed.

Lemma stats_section_literal (t : pystr) :
  literal t = true -> literal (stats_section t) = true.
Proof.
  intros H. unfold stats_section, section_title.
  rewrite !literal_app, H. reflexivity.
Qed.

(** With a literal table text the replacement is the section itself. *)
Lemma update_content_both (t doc : pystr) :
  literal t = true ->
  str_in start_marker doc = true -> str_in end_marker doc = true ->
  update_content t doc = Ok (re_sub (fun _ => stats_section t) 0 doc).
Proof.
  intros Hl Hs He. unfold update_content. rewrite Hs, He. cbn [andb].
  rewrite (parse_literal _ (stats_section_literal _ Hl)).
  unfold bind. f_equal. apply re_sub_ext. intros m. apply expand_lits.
Qed.

Lemma re_sub_no_start (repl : pystr -> pystr) (s : pystr) :
  str_in start_marker s = false -> re_sub repl 0 s = s.
Proof.
  intros H. destruct (re_sub_cases repl s) as [E|(pre & mid & post & _ & E & _)];
    [exact E|].
  unfold str_in in H. now rewrite E in H.
Qed.

Lemma re_sub_no_end_marker (repl : pystr -> pystr) (s : pystr) :
  str_in end_marker s = false -> re_sub repl 0 s = s.
Proof.
  intros H. destruct (re_sub_cases repl s) as [E|(pre & mid & post & E & _)];
    [exact E|].
  subst s. rewrite 2!app_assoc in H. now rewrite str_in_mid in H.
Qed.

(** A section that stands where the first start marker stood is replaced
    by itself. *)
Lemma re_sub_section (t pre x z : pystr) :
  str_in end_marker t = false ->
  str_find start_marker (pre ++ start_marker ++ x) = Some (length pre) ->
  re_sub (fun _ => stats_section t) 0 (pre ++ stats_section t ++ z) =
  pre ++ stats_section t ++ re_sub (fun _ => stats_section t) 0 z.
Proof.
  intros Ht Hs. unfold stats_section at 2.
  replace (pre ++ (start_marker ++ section_title ++ t ++ [nl; nl] ++
                   end_marker) ++ z)
    with (pre ++ start_marker ++ (section_title ++ t ++ [nl; nl]) ++
          end_marker ++ z)
    by (rewrite <- !app_assoc; reflexivity).
  rewrite re_sub_span.
  - reflexivity.
  - apply (str_find_stable _ _ _ _ Hs).
  - rewrite <- !app_assoc. now rewrite find_end_in_section by exact Ht.
Qed.

Lemma re_sub_idempotent (t : pystr) (n : nat) (s : pystr) :
  str_in end_marker t = false -> length s <= n ->
  re_sub (fun _ => stats_section t) 0 (re_sub (fun _ => stats_section t) 0 s)
  = re_sub (fun _ => stats_section t) 0 s.
Proof.
  intros Ht. revert s; induction n as [|n IH]; intros s Hn.
  - destruct s; [reflexivity|simpl in Hn; lia].
  - destruct (re_sub_cases (fun _ => stats_section t) s)
      as [E|(pre & mid & post & E & Hs & He)]; [now rewrite E|].
    subst s. rewrite (re_sub_span _ _ _ _ Hs He).
    rewrite (re_sub_section t pre _ _ Ht Hs). do 2 f_equal.
    apply IH. rewrite !length_app, length_start_marker in Hn. lia.
Qed.

(** Whatever the template expands to, the result of the substitution
    keeps both markers. *)
Lemma re_sub_keeps_markers (repl : pystr -> pystr) (s : pystr) :
  (forall m, exists u, repl m = start_marker ++ u ++ end_marker) ->
  str_in start_marker s = true -> str_in end_marker s = true ->
  str_in start_marker (re_sub repl 0 s) = true /\
  str_in end_marker (re_sub repl 0 s) = true.
Proof.
  intros Hr Hs He.
  destruct (re_sub_cases repl s) as [E|(pre & mid & post & E & Hs' & He')].
  - now rewrite E.
  - subst s. rewrite (re_sub_span _ _ _ _ Hs' He').
    destruct (Hr (start_marker ++ mid ++ end_marker)) as [u ->]. split.
    + rewrite <- app_assoc. apply str_in_mid.
    + replace (pre ++ (start_marker ++ u ++ end_marker) ++ re_sub repl 0 post)
        with ((pre ++ start_marker ++ u) ++ end_marker ++ re_sub repl 0 post)
        by (rewrite <- !app_assoc; reflexivity).
      apply str_in_mid.
Qed.

Lemma stats_section_markers (t a b : pystr) :
  str_in start_marker (a ++ stats_section t ++ b) = true /\
  str_in end_marker (a ++ stats_section t ++ b) = true.
Proof.
  unfold stats_section. split.
  - rewrite <- app_assoc. apply str_in_mid.
  - replace (a ++ (start_marker ++ section_title ++ t ++ [nl; nl] ++
                   end_marker) ++ b)
      with ((a ++ start_marker ++ section_title ++ t ++ [nl; nl]) ++
            end_marker ++ b)
      by (rewrite <- !app_assoc; reflexivity).
    apply str_in_mid.
Qed.

Lemma expand_section_shape (t : pystr) (ps : list piece) :
  parse_template (stats_section t) = Ok ps ->
  forall m, exists u, expand ps m = start_marker ++ u ++ end_marker.
Proof.
  unfold parse_template, stats_section.
  rewrite (parse_literal_prefix start_marker _ eq_refl).
  destruct (parse TNormal (section_title ++ t ++ [nl; nl] ++ end_marker))
    as [qs|] eqn:Hq; [|discriminate].
  intros H m.
  assert (Hps : ps = map PLit start_marker ++ qs) by congruence.
  rewrite app_assoc in Hq. apply parse_end_marker in Hq as [ps' ->].
  exists (expand ps' m). now rewrite Hps, !expand_app, !expand_lits.
Qed.

Lemma update_content_else (t doc : pystr) :
  str_in start_marker doc && str_in end_marker doc = false ->
  update_content t doc =
  if str_in arrow doc then
    let parts := rsplit_1 arrow doc in
    Ok (nth 0 parts [] ++ arrow ++ [nl; nl] ++ stats_section t
        ++ nth 1 parts [])
  else Ok (doc ++ [nl; nl] ++ stats_section t).
Proof. unfold update_content. now intros ->. Qed.

(** The guarded [rsplit] always yields two parts, cut at the last
    delimiter. *)
Lemma rsplit_arrow (doc : pystr) :
  str_in arrow doc = true ->
  exists before after,
    rsplit_1 arrow doc = [before; after] /\
    doc = before ++ arrow ++ after /\
    forall j, length before < j -> startswith arrow (skipn j doc) = false.
Proof.
  intros H. destruct (rpartition_in _ _ arrow_nonempty H) as (a & b & Hr).
  exists a, b. unfold rsplit_1. rewrite Hr. split; [reflexivity|].
  now apply rpartition_Some.
Qed.

(** Behind a blank line that follows marker-free text, the first start
    marker is the one written there. *)
Lemma find_start_after_blank (u x : pystr) :
  str_in start_marker u = false ->
  str_find start_marker ((u ++ [nl; nl]) ++ start_marker ++ x)
  = Some (length (u ++ [nl; nl])).
Proof.
  intros Hu. unfold str_in in Hu.
  destruct (str_find start_marker u) eqn:Hf; [discriminate|].
  pose proof nl_not_in_start as Hn. pose proof start_marker_nonempty as Hs.
  replace ((u ++ [nl; nl]) ++ start_marker ++ x)
    with (u ++ nl :: ([] ++ nl :: (start_marker ++ x)))
    by (rewrite <- !app_assoc; reflexivity).
  rewrite (str_find_sep_None _ u _ _ Hn Hs Hf).
  rewrite (str_find_sep_None _ [] _ _ Hn Hs eq_refl).
  rewrite (str_find_unfold start_marker (start_marker ++ x)), startswith_app.
  cbn [option_map]. f_equal. rewrite length_app. simpl. lia.
Qed.

(** Splicing a section behind marker-free text and a blank line, then
    substituting again, changes nothing. *)
Lemma re_sub_fresh_section (t u z : pystr) :
  str_in end_marker t = false ->
  str_in start_marker u = false ->
  str_in start_marker z = false ->
  re_sub (fun _ => stats_section t) 0 ((u ++ [nl; nl]) ++ stats_section t ++ z)
  = (u ++ [nl; nl]) ++ stats_section t ++ z.
Proof.
  intros Ht Hu Hz.
  rewrite (re_sub_section t _ [] z Ht (find_start_after_blank u [] Hu)).
  now rewrite re_sub_no_start.
Qed.

End Splicer.

(** ** Claims about the splicer *)

Section SplicerClaims.

(** C10. Whenever [update_readme]'s transformation produces a document,
    that document contains both marker literals; and it does produce one
    for every document whenever the table text has no backslash (with a
    backslash, [re.sub] may reject the replacement template and no
    document is produced). *)
Theorem update_content_keeps_markers (t doc : pystr) :
  (literal t = true -> exists doc', update_content t doc = Ok doc') /\
  (forall doc', update_content t doc = Ok doc' ->
     str_in start_marker doc' = true /\ str_in end_marker doc' = true).
Proof.
  destruct (str_in start_marker doc && str_in end_marker doc) eqn:Hb.
  - apply andb_true_iff in Hb as [Hs He]. split.
    + intros Hl. rewrite (update_content_both _ _ Hl Hs He). eauto.
    + unfold update_content. rewrite Hs, He. cbn [andb].
      destruct (Template.parse_template (stats_section t)) as [ps|e] eqn:Hp;
        [|discriminate].
      cbn [bind]. intros doc' <-%Ok_inj.
      apply re_sub_keeps_markers;
        [exact (expand_section_shape t ps Hp)|exact Hs|exact He].
  - rewrite (update_content_else _ _ Hb).
    destruct (str_in arrow doc) eqn:Ha.
    + destruct (rsplit_arrow _ Ha) as (a & b & -> & _). cbn [nth].
      split; [eauto|]. intros doc' <-%Ok_inj.
      replace (a ++ arrow ++ [nl; nl] ++ stats_section t ++ b)
        with ((a ++ arrow ++ [nl; nl]) ++ stats_section t ++ b)
        by (now rewrite <- !app_assoc).
      apply stats_section_markers.
    + split; [eauto|]. intros doc' <-%Ok_inj.
      replace (doc ++ [nl; nl] ++ stats_section t)
        with ((doc ++ [nl; nl]) ++ stats_section t ++ [])
        by (now rewrite app_nil_r, <- !app_assoc).
      apply stats_section_markers.
Qed.

Lemma update_content_keeps_markers_witness :
  exists doc',
    update_content (utf8 "| Rust | 100.00% |") (utf8 "# Hi") = Ok doc' /\
    str_in start_marker doc' = true /\ str_in end_marker doc' = true.
Proof.
  destruct (update_content_keeps_markers
              (utf8 "| Rust | 100.00% |") (utf8 "# Hi")) as [Htot Hm].
  destruct (Htot eq_refl) as [doc' Hd].
  exists doc'. split; [exact Hd|]. exact (Hm doc' Hd).
Defined.

(** C1, as the code has it.  In a document with neither marker but with a
    [-->], the new section is inserted right behind the LAST [-->] (the
    code uses [rsplit]), after a blank line, and the text before and
    after the insertion point is kept as it was. *)
Theorem insert_after_last_arrow (t doc : pystr) :
  str_in start_marker doc = false ->
  str_in end_marker doc = false ->
  str_in arrow doc = true ->
  exists before after,
    doc = before ++ arrow ++ after /\
    (forall j, length before < j ->
               startswith arrow (skipn j doc) = false) /\
    update_content t doc =
    Ok (before ++ arrow ++ [nl; nl] ++ stats_section t ++ after).
Proof.
  intros Hs He Ha.
  rewrite update_content_else by (now rewrite Hs). rewrite Ha.
  destruct (rsplit_arrow _ Ha) as (a & b & -> & Hdoc & Hlast).
  exists a, b. auto.
Qed.

Lemma insert_after_last_arrow_witness :
  exists before after,
    utf8 "<!-- a -->x" = before ++ arrow ++ after /\
    (forall j, length before < j ->
               startswith arrow (skipn j (utf8 "<!-- a -->x")) = false) /\
    update_content (utf8 "T") (utf8 "<!-- a -->x") =
    Ok (before ++ arrow ++ [nl; nl] ++ stats_section (utf8 "T") ++ after).
Proof.
  apply (insert_after_last_arrow (utf8 "T") (utf8 "<!-- a -->x"));
    reflexivity.
Defined.

(** C1 as written fails: with two delimiters the section does not go
    behind the first one. *)
Lemma insert_after_first_arrow_fails :
  str_in start_marker (utf8 "a-->b-->c") = false /\
  str_in end_marker (utf8 "a-->b-->c") = false /\
  str_in arrow (utf8 "a-->b-->c") = true /\
  ~ inserted_after_first_arrow (utf8 "T") (utf8 "a-->b-->c").
Proof.
  repeat split. intros H. specialize (H 1 eq_refl).
  vm_compute in H. discriminate H.
Qed.

(** C8, as the code has it.  When the first start marker is followed by
    an end marker and the table text has no backslash, the span from that
    start marker to the first end marker behind it is replaced by the new
    section, the text before it is kept, and the text behind it is
    scanned on in the same way: every further span is replaced too.  If
    the text behind the first span lacks one of the markers it is kept as
    it was. *)
Theorem replace_every_span (t pre mid post : pystr) :
  literal t = true ->
  str_find start_marker (pre ++ start_marker ++ mid ++ end_marker ++ post)
  = Some (length pre) ->
  str_find end_marker (mid ++ end_marker ++ post) = Some (length mid) ->
  update_content t (pre ++ start_marker ++ mid ++ end_marker ++ post) =
  Ok (pre ++ stats_section t ++ re_sub (fun _ => stats_section t) 0 post) /\
  (str_in start_marker post = false \/ str_in end_marker post = false ->
   update_content t (pre ++ start_marker ++ mid ++ end_marker ++ post) =
   Ok (pre ++ stats_section t ++ post)).
Proof.
  intros Hl Hs He.
  assert (Hu : update_content t
                 (pre ++ start_marker ++ mid ++ end_marker ++ post) =
               Ok (pre ++ stats_section t ++
                   re_sub (fun _ => stats_section t) 0 post)).
  { rewrite update_content_both; [now rewrite re_sub_span|exact Hl| |].
    - apply str_in_mid.
    - rewrite 2!app_assoc. apply str_in_mid. }
  split; [exact Hu|]. intros [H|H]; rewrite Hu.
  - now rewrite re_sub_no_start.
  - now rewrite re_sub_no_end_marker.
Qed.

Lemma replace_every_span_witness :
  update_content (utf8 "T")
    (utf8 "# Me " ++ start_marker ++ utf8 "old" ++ end_marker ++ utf8 " bye")
  = Ok (utf8 "# Me " ++ stats_section (utf8 "T") ++ utf8 " bye").
Proof.
  apply (replace_every_span (utf8 "T") (utf8 "# Me ") (utf8 "old")
           (utf8 " bye")); try reflexivity.
  left; reflexivity.
Defined.

(** C8 as written fails: a second span behind the first one is replaced
    as well, so not everything outside the first span is preserved. *)
Lemma replace_first_span_only_fails :
  str_in start_marker
    (start_marker ++ end_marker ++ start_marker ++ end_marker) = true /\
  str_in end_marker
    (start_marker ++ end_marker ++ start_marker ++ end_marker) = true /\
  ~ replaced_first_span_only (utf8 "T")
      (start_marker ++ end_marker ++ start_marker ++ end_marker).
Proof.
  repeat split. intros H.
  specialize (H [] [] (start_marker ++ end_marker) eq_refl eq_refl eq_refl).
  vm_compute in H. discriminate H.
Qed.

(** C7, as the code has it.  Splicing twice gives the same document as
    splicing once whenever the table text contains neither a backslash
    nor the end marker and the document does not contain a start marker
    without an end marker. *)
Theorem update_content_idempotent (t doc : pystr) :
  literal t = true ->
  str_in end_marker t = false ->
  (str_in start_marker doc = true -> str_in end_marker doc = true) ->
  exists doc',
    update_content t doc = Ok doc' /\ update_twice t doc = Ok doc'.
Proof.
  intros Hl Ht Hdoc. unfold update_twice.
  destruct (str_in start_marker doc && str_in end_marker doc) eqn:Hb.
  - apply andb_true_iff in Hb as [Hs He].
    rewrite (update_content_both _ _ Hl Hs He). cbn [bind].
    eexists; split; [reflexivity|].
    destruct (re_sub_keeps_markers (fun _ => stats_section t) doc)
      as [Hs' He']; [|exact Hs|exact He|].
    { intros _. exists (section_title ++ t ++ [nl; nl]).
      unfold stats_section. now rewrite <- !app_assoc. }
    rewrite (update_content_both _ _ Hl Hs' He'). f_equal.
    now apply (re_sub_idempotent t (length doc)).
  - assert (Hs : str_in start_marker doc = false).
    { destruct (str_in start_marker doc); [|reflexivity].
      now rewrite Hdoc in Hb. }
    rewrite (update_content_else _ _ Hb).
    destruct (str_in arrow doc) eqn:Ha.
    + destruct (rsplit_arrow _ Ha) as (a & b & -> & Hab & _). cbn [nth bind].
      eexists; split; [reflexivity|].
      replace (a ++ arrow ++ [nl; nl] ++ stats_section t ++ b)
        with (((a ++ arrow) ++ [nl; nl]) ++ stats_section t ++ b)
        by (now rewrite <- !app_assoc).
      destruct (stats_section_markers t ((a ++ arrow) ++ [nl; nl]) b)
        as [Hs' He'].
      rewrite (update_content_both _ _ Hl Hs' He'). f_equal.
      rewrite Hab, app_assoc in Hs. apply str_in_false_app in Hs as [Hu Hz].
      now apply re_sub_fresh_section.
    + cbn [bind]. eexists; split; [reflexivity|].
      replace (doc ++ [nl; nl] ++ stats_section t)
        with ((doc ++ [nl; nl]) ++ stats_section t ++ [])
        by (now rewrite app_nil_r, <- !app_assoc).
      destruct (stats_section_markers t (doc ++ [nl; nl]) []) as [Hs' He'].
      rewrite (update_content_both _ _ Hl Hs' He'). f_equal.
      now apply re_sub_fresh_section.
Qed.

Lemma update_content_idempotent_witness :
  exists doc',
    update_content (utf8 "| Rust | 100.00% |")
      (utf8 "# Me " ++ start_marker ++ utf8 "old" ++ end_marker) = Ok doc' /\
    update_twice (utf8 "| Rust | 100.00% |")
      (utf8 "# Me " ++ start_marker ++ utf8 "old" ++ end_marker) = Ok doc'.
Proof.
  apply (update_content_idempotent (utf8 "| Rust | 100.00% |")
           (utf8 "# Me " ++ start_marker ++ utf8 "old" ++ end_marker));
    reflexivity.
Defined.

(** C7 as written fails: on a document that holds only the start marker,
    the second run removes the stray marker that the first run kept. *)
Lemma update_twice_differs :
  update_twice (utf8 "T") start_marker
  <> update_content (utf8 "T") start_marker.
Proof. vm_compute. discriminate. Qed.

(** The other two limits of idempotence: a table text that holds the end
    marker, and one that holds a backslash escape. *)
Example update_twice_differs_end_marker :
  update_twice end_marker (utf8 "x") <> update_content end_marker (utf8 "x").
Proof. vm_compute. discriminate. Qed.

Example update_twice_differs_backslash :
  update_twice (utf8 "a\\b") (utf8 "x")
  <> update_content (utf8 "a\\b") (utf8 "x").
Proof. vm_compute. discriminate. Qed.

(** A table text with an unknown escape makes [re.sub] raise; one with
    [\g<0>] brings the replaced span back. *)
Example template_rejected :
  update_content (utf8 "C:\dir") (start_marker ++ end_marker)
  = Raise TemplateError.
Proof. reflexivity. Qed.

Example template_group_reference :
  update_content (utf8 "\g<0>") (start_marker ++ utf8 "old" ++ end_marker)
  = Ok (start_marker ++ section_title
        ++ (start_marker ++ utf8 "old" ++ end_marker)
        ++ [nl; nl] ++ end_marker).
Proof. reflexivity. Qed.

(** Markers without a span, an end marker behind the first start marker,
    leave the document as it was. *)
Lemma update_content_no_span (t doc : pystr) (i : nat) :
  literal t = true ->
  str_in end_marker doc = true ->
  str_find start_marker doc = Some i ->
  str_find end_marker (skipn (i + 29) doc) = None ->
  update_content t doc = Ok doc.
Proof.
  intros Hl He Hs Hnone.
  rewrite update_content_both; [|exact Hl|unfold str_in; now rewrite Hs|exact He].
  f_equal.
  destruct (re_sub_cases (fun _ => stats_section t) doc)
    as [E|(pre & mid & post & E & Hs' & He')]; [exact E|].
  exfalso. rewrite Hs in Hs'. injection Hs' as ->. subst doc.
  rewrite <- length_start_marker, app_assoc, <- length_app in Hnone.
  rewrite skipn_length_app in Hnone. congruence.
Qed.

Example inverted_markers_unchanged :
  update_content (utf8 "T") (end_marker ++ start_marker)
  = Ok (end_marker ++ start_marker).
Proof. reflexivity. Qed.

End SplicerClaims.

Section ReadmeClaims.

Variable fsys : Type.
Variable open_read : pystr -> fsys -> result pystr.
Variable open_write : pystr -> pystr -> fsys -> result unit * fsys.

(** C9, as the code has it.  Only a missing document is recovered: when
    the read raises [FileNotFoundError] the default text is spliced and
    the outcome of [update_readme] is that of writing it, so the run
    still fails when that write fails.  Every other failure of the read
    is raised again, and nothing is written. *)
Theorem missing_document_recovered (t path : pystr) (s : fsys) :
  (open_read path s = Raise FileNotFoundError ->
   update_readme_with fsys open_read open_write t path s =
   open_write path (default_content ++ [nl; nl] ++ stats_section t) s) /\
  (forall e, open_read path s = Raise e -> e <> FileNotFoundError ->
     update_readme_with fsys open_read open_write t path s = (Raise e, s)).
Proof.
  unfold update_readme_with. split.
  - intros H. rewrite H. reflexivity.
  - intros e H He. rewrite H. destruct e; try reflexivity. congruence.
Qed.

End ReadmeClaims.

Lemma missing_document_recovered_witness :
  update_readme_with filesystem simple_read simple_write
    (utf8 "T") (utf8 "README.md") (fun _ => Missing) =
  simple_write (utf8 "README.md")
    (default_content ++ [nl; nl] ++ stats_section (utf8 "T"))
    (fun _ => Missing).
Proof.
  apply (missing_document_recovered filesystem simple_read simple_write
           (utf8 "T") (utf8 "README.md") (fun _ => Missing)).
  reflexivity.
Defined.

(** C9 as written fails: an unreadable document is a read failure that
    is not recovered; the write that would have succeeded is not made. *)
Lemma unreadable_document_fatal :
  ~ read_failure_recovered filesystem simple_read simple_write
      (utf8 "T") (utf8 "README.md")
      (fun _ => File false true (utf8 "# Hi")).
Proof.
  intros H. specialize (H PermissionError eq_refl).
  apply (f_equal fst) in H. vm_compute in H. discriminate H.
Qed.

(** A missing document in a missing directory: the read is recovered,
    the write is not. *)
Example missing_directory_fatal :
  update_readme_with unit
    (fun _ _ => Raise FileNotFoundError)
    (fun _ _ s => (Raise FileNotFoundError, s))
    (utf8 "T") (utf8 "docs/README.md") tt
  = (Raise FileNotFoundError, tt).
Proof. reflexivity. Qed.

(** [update_readme] on the simple file system is the instance of the
    general definition at [simple_read] and [simple_write]. *)
Lemma update_readme_simple (t path : pystr) (fs : filesystem) :
  update_readme t path fs =
  match update_readme_with filesystem simple_read simple_write t path fs with
  | (Ok _, fs') => Ok fs'
  | (Raise e, _) => Raise e
  end.
Proof.
  unfold update_readme, update_readme_with, simple_read, simple_write.
  destruct (read_file fs path) as [c|[]]; cbn [bind]; try reflexivity.
  - destruct (update_content t c); cbn [bind]; [|reflexivity].
    now destruct (write_file fs path a).
  - destruct (update_content t default_content); cbn [bind]; [|reflexivity].
    now destruct (write_file fs path a).
Qed.

(** * The ranker *)

Section Ranker.

Lemma insert_desc_perm (x : entry) (l : list entry) :
  Permutation (insert_desc x l) (x :: l).
Proof.
  induction l as [|y l IH]; simpl; [reflexivity|].
  destruct (Qle_bool (percent_of y) (percent_of x)); [reflexivity|].
  rewrite IH. apply perm_swap.
Qed.

Lemma sort_desc_perm (l : list entry) : Permutation (sort_desc l) l.
Proof.
  induction l as [|x l IH]; simpl; [reflexivity|].
  rewrite insert_desc_perm. now constructor.
Qed.

Lemma insert_desc_sorted (x : entry) (l : list entry) :
  ranked_descending l -> ranked_descending (insert_desc x l).
Proof.
  unfold ranked_descending.
  induction l as [|y l IH]; intros Hl; simpl.
  - constructor; constructor.
  - inversion Hl as [|? ? Hl' Hy]; subst.
    destruct (Qle_bool (percent_of y) (percent_of x)) eqn:Hc.
    + apply Qle_bool_iff in Hc. constructor; [exact Hl|].
      constructor; [exact Hc|].
      eapply Forall_impl; [|exact Hy]. intros z Hz. cbv beta in *.
      now apply Qle_trans with (percent_of y).
    + constructor; [now apply IH|].
      eapply Permutation_Forall;
        [apply Permutation_sym, insert_desc_perm|].
      constructor; [|exact Hy].
      apply Qlt_le_weak, Qnot_le_lt. intros Hle.
      apply Qle_bool_iff in Hle. congruence.
Qed.

Lemma sort_desc_sorted (l : list entry) : ranked_descending (sort_desc l).
Proof.
  induction l as [|x l IH]; simpl; [constructor|].
  now apply insert_desc_sorted.
Qed.

Lemma sum_percent_insert (x : entry) (l : list entry) :
  (sum_percent (insert_desc x l) == percent_of x + sum_percent l)%Q.
Proof.
  induction l as [|y l IH]; simpl; [reflexivity|].
  destruct (Qle_bool (percent_of y) (percent_of x)); simpl; [reflexivity|].
  rewrite IH. ring.
Qed.

Lemma sum_percent_sort (l : list entry) :
  (sum_percent (sort_desc l) == sum_percent l)%Q.
Proof.
  induction l as [|x l IH]; simpl; [reflexivity|].
  now rewrite sum_percent_insert, IH.
Qed.

Lemma sum_values_acc (d : dict) (a : Z) :
  fold_left (fun acc kv => (acc + snd kv)%Z) d a = (a + sum_values d)%Z.
Proof.
  unfold sum_values. revert a; induction d as [|kv d IH]; intros a; simpl.
  - lia.
  - rewrite IH, (IH (snd kv)). lia.
Qed.

Lemma sum_values_cons (kv : pystr * Z) (d : dict) :
  sum_values (kv :: d) = (snd kv + sum_values d)%Z.
Proof. unfold sum_values at 1. simpl. apply sum_values_acc. Qed.

Lemma sum_percent_entries (total : Z) (d : dict) :
  total <> 0%Z ->
  (sum_percent (map (make_entry total) d)
   == inject_Z (sum_values d) / inject_Z total * 100)%Q.
Proof.
  intros Ht.
  assert (Hq : ~ (inject_Z total == 0)%Q).
  { unfold Qeq. simpl. lia. }
  induction d as [|kv d IH].
  - simpl. change (sum_values []) with 0%Z. now field.
  - change (map (make_entry total) (kv :: d))
      with (make_entry total kv :: map (make_entry total) d).
    cbn [sum_percent fold_right]. fold (sum_percent (map (make_entry total) d)).
    rewrite IH, sum_values_cons, inject_Z_plus.
    unfold percent_of, make_entry; cbn [fst snd]. now field.
Qed.

Lemma calculate_percentages_ok (d : dict) :
  d <> [] -> sum_values d <> 0%Z ->
  calculate_percentages d
  = Ok (sort_desc (map (make_entry (sum_values d)) d)).
Proof.
  intros Hd Ht. unfold calculate_percentages.
  destruct d as [|kv d]; [congruence|].
  destruct (Z.eqb_spec (sum_values (kv :: d)) 0); [contradiction|reflexivity].
Qed.

End Ranker.

(** ** Claims about the ranker *)

Section RankerClaims.

(** C2. For a non-empty mapping of non-negative byte counts with a
    positive total, [calculate_percentages] returns a ranking whose
    percentages, taken as rationals, sum to exactly 100. *)
Theorem percentages_sum_to_100 (d : dict) :
  d <> [] ->
  Forall (fun kv => (0 <= snd kv)%Z) d ->
  (0 < sum_values d)%Z ->
  exists r, calculate_percentages d = Ok r /\ (sum_percent r == 100)%Q.
Proof.
  intros Hd _ Ht.
  assert (Hnz : sum_values d <> 0%Z) by lia.
  exists (sort_desc (map (make_entry (sum_values d)) d)).
  split; [now apply calculate_percentages_ok|].
  rewrite sum_percent_sort, sum_percent_entries by exact Hnz.
  field. unfold Qeq. simpl. lia.
Qed.

Lemma percentages_sum_to_100_witness :
  exists r,
    calculate_percentages
      [(utf8 "Rust", 700%Z); (utf8 "Python", 200%Z); (utf8 "C", 100%Z)]
    = Ok r /\ (sum_percent r == 100)%Q.
Proof.
  apply (percentages_sum_to_100
           [(utf8 "Rust", 700%Z); (utf8 "Python", 200%Z); (utf8 "C", 100%Z)]).
  - discriminate.
  - repeat constructor; simpl; lia.
  - reflexivity.
Defined.




End RankerClaims.

(** * The renderer *)

Section Renderer.

(** Rounding moves a value by at most one half. *)
Lemma round_half_even_near (x : Q) :
  (2 * Z.abs (Qnum x - round_half_even x * Zpos (Qden x))
   <= Zpos (Qden x))%Z.
Proof.
  unfold round_half_even.
  pose proof (Z.div_mod (Qnum x) (Zpos (Qden x)) ltac:(lia)) as Hdm.
  pose proof (Z.mod_pos_bound (Qnum x) (Zpos (Qden x)) ltac:(lia)) as Hb.
  set (q := (Qnum x / Zpos (Qden x))%Z) in *.
  set (r := (Qnum x mod Zpos (Qden x))%Z) in *.
  destruct (Z.compare_spec (2 * r) (Zpos (Qden x)));
    [destruct (Z.even q)| |]; nia.
Qed.

Lemma int_of_float_floor (x : Q) :
  (0 <= x)%Q -> int_of_float x = Qfloor x.
Proof.
  destruct x as [n d]. unfold Qle, int_of_float, Qfloor. simpl.
  intros H. apply Z.quot_div_nonneg; lia.
Qed.

Lemma bar_fill_bounds (percent : Q) :
  (0 <= percent)%Q -> (percent <= 100)%Q ->
  (0 <= inject_Z 20 * percent / 100)%Q /\
  (0 <= Qfloor (inject_Z 20 * percent / 100) <= 20)%Z.
Proof.
  intros H0 H100.
  assert (Hlo : (0 <= inject_Z 20 * percent / 100)%Q).
  { destruct percent as [n d].
    unfold Qle, Qdiv, Qmult, Qinv, inject_Z in *. cbn [Qnum Qden] in *. lia. }
  assert (Hhi : (inject_Z 20 * percent / 100 <= inject_Z 20)%Q).
  { destruct percent as [n d].
    unfold Qle, Qdiv, Qmult, Qinv, inject_Z in *. cbn [Qnum Qden] in *. lia. }
  split; [exact Hlo|]. split.
  - change 0%Z with (Qfloor (inject_Z 0)) at 1.
    rewrite Qfloor_Z. rewrite <- (Qfloor_Z 0). now apply Qfloor_resp_le.
  - rewrite <- (Qfloor_Z 20). now apply Qfloor_resp_le.
Qed.

Lemma format_2f_nonneg (x : Q) :
  (0 <= x)%Q -> format_2f x = two_decimals (round_half_even (x * 100)).
Proof.
  intros H. unfold format_2f.
  now rewrite (proj2 (Qle_bool_iff 0 x) H).
Qed.

(** The number of hundredths printed for a float that is [n / unit]. *)
Lemma format_2f_near (y : Q) (n unit : Z) :
  (0 <= n)%Z -> (0 < unit)%Z ->
  (y == inject_Z n / inject_Z unit)%Q ->
  exists k, (0 <= k)%Z /\
            (2 * Z.abs (100 * n - k * unit) <= unit)%Z /\
            format_2f y = two_decimals k.
Proof.
  intros Hn Hu Hy.
  assert (Hx : (0 <= y)%Q).
  { rewrite Hy. destruct unit as [|u|u]; try lia. unfold Qle. simpl. lia. }
  exists (round_half_even (y * 100)).
  pose proof (round_half_even_near (y * 100)) as Hr.
  destruct unit as [|u|u]; try lia. destruct y as [a b].
  unfold Qeq, Qdiv, Qmult, Qinv, inject_Z in Hy.
  unfold Qle in Hx. unfold Qmult in Hr. cbn [Qnum Qden] in Hy, Hr, Hx.
  set (k := round_half_even (a * 100 # b * 1)) in *.
  replace (Zpos (b * 1)) with (Zpos b) in Hr by lia.
  replace (Zpos (1 * u)) with (Zpos u) in Hy by lia.
  assert (Ha : (0 <= a)%Z) by lia.
  assert (Hab : (a * Zpos u = n * Zpos b)%Z) by lia.
  clear Hy Hx.
  assert (Hk : (0 <= k)%Z).
  { destruct (Z.le_gt_cases 0 k); [assumption|nia]. }
  split; [exact Hk|]. split; [|apply format_2f_nonneg; unfold Qle; simpl; lia].
  change (round_half_even ((a # b) * 100)) with k.
  apply (proj2 (Z.mul_le_mono_pos_r _ _ (Zpos b) ltac:(lia))).
  replace (2 * Z.abs (100 * n - k * Zpos u) * Zpos b)%Z
    with (Zpos u * (2 * Z.abs (a * 100 - k * Zpos b)))%Z.
  - apply Z.mul_le_mono_nonneg_l; lia.
  - assert (E : Z.abs ((100 * n - k * Zpos u) * Zpos b)
                = Z.abs (Zpos u * (a * 100 - k * Zpos b))) by (f_equal; lia).
    rewrite !Z.abs_mul in E.
    rewrite (Z.abs_eq (Zpos b)), (Z.abs_eq (Zpos u)) in E by lia.
    rewrite Z.mul_assoc, (Z.mul_comm (Zpos u) 2), <- !Z.mul_assoc.
    now rewrite E.
Qed.

Lemma pow2_nonneg (k : Z) : (0 <= k)%Z -> pow2 k = (2 ^ k)%Z.
Proof. intros H. unfold pow2. now rewrite Z.max_r. Qed.

Lemma pow2_nonpos (k : Z) : (k <= 0)%Z -> pow2 k = 1%Z.
Proof. intros H. unfold pow2. now rewrite Z.max_l. Qed.

Lemma round_half_even_multiple (q : Z) (d : positive) :
  round_half_even ((q * Zpos d) # d) = q.
Proof.
  unfold round_half_even. cbn [Qnum Qden].
  rewrite Z.div_mul, Z.mod_mul by lia. reflexivity.
Qed.

(** A quotient by a power of two that needs at most 53 bits is a double:
    rounding returns it unchanged. *)
Lemma round_to_double_exact (n j : Z) (x : Q) :
  (0 <= j)%Z -> (2 ^ j <= n < 2 ^ 53)%Z ->
  Qnum x = n -> Zpos (Qden x) = (2 ^ j)%Z ->
  exists y, round_to_double x = Ok y /\ (y == x)%Q.
Proof.
  intros Hj [Hlo Hhi] Hnum Hden.
  assert (Hpj : (0 < 2 ^ j)%Z) by (apply Z.pow_pos_nonneg; lia).
  assert (Hn : (0 < n)%Z) by lia.
  destruct (Z.log2_spec n Hn) as [HL1 HL2].
  set (L := Z.log2 n) in *.
  assert (HLj : (j <= L)%Z).
  { unfold L. rewrite <- (Z.log2_pow2 j Hj). now apply Z.log2_le_mono. }
  assert (HL52 : (L <= 52)%Z).
  { assert (L < 53)%Z; [|lia]. apply Z.log2_lt_pow2; lia. }
  unfold round_to_double. rewrite Hnum, Hden.
  rewrite (Z.abs_eq n) by lia.
  destruct (Z.eqb_spec n 0) as [|_]; [lia|].
  assert (Hi : ilog2 n (2 ^ j) = (L - j)%Z).
  { unfold ilog2. rewrite Z.log2_pow2 by lia. fold L.
    rewrite (pow2_nonneg (L - j)), (pow2_nonpos (- (L - j))) by lia.
    rewrite <- Z.pow_add_r by lia. replace (j + (L - j))%Z with L by lia.
    rewrite Z.mul_1_r. now rewrite (proj2 (Z.leb_le _ _) HL1). }
  rewrite Hi. rewrite (Z.max_l (L - j - 52) (-1074)) by lia.
  rewrite (pow2_nonpos (L - j - 52)), (pow2_nonneg (- (L - j - 52))) by lia.
  rewrite !Z.mul_1_r.
  replace (- (L - j - 52))%Z with ((52 - L) + j)%Z by lia.
  rewrite Z.pow_add_r by lia.
  set (c := (2 ^ (52 - L))%Z).
  assert (Hc : (0 < c)%Z) by (apply Z.pow_pos_nonneg; lia).
  assert (Hm : round_half_even ((n * (c * 2 ^ j)) # Z.to_pos (2 ^ j))
               = (n * c)%Z).
  { rewrite <- Hden. rewrite Pos2Z.id, Z.mul_assoc.
    apply round_half_even_multiple. }
  rewrite Hm.
  assert (Hnc : (n * c < 2 ^ 53)%Z).
  { replace (2 ^ 53)%Z with (2 ^ (Z.succ L) * c)%Z.
    - apply Z.mul_lt_mono_pos_r; assumption.
    - unfold c. rewrite <- Z.pow_add_r by lia. f_equal. lia. }
  assert (Hbig : (2 ^ 53 < 2 ^ 1024)%Z) by (apply Z.pow_lt_mono_r; lia).
  destruct (Z.leb_spec (2 ^ 1024 * (c * 2 ^ j)) (n * c)) as [Hov|_].
  { exfalso.
    assert (2 ^ 1024 * 1 <= 2 ^ 1024 * (c * 2 ^ j))%Z; [|lia].
    apply Z.mul_le_mono_nonneg_l; [lia|]. nia. }
  eexists. split; [reflexivity|].
  unfold Qeq. cbn [Qnum Qden]. rewrite Hnum, Hden.
  rewrite Z2Pos.id by nia.
  rewrite (Z.sgn_pos n) by lia. ring.
Qed.

(** Below [2 ^ 53] the division of a byte count by a unit is exact. *)
Lemma true_div_exact (n j : Z) :
  (0 <= j)%Z -> (2 ^ j <= n < 2 ^ 53)%Z ->
  exists y, true_div n (2 ^ j) = Ok y /\
            (y == inject_Z n / inject_Z (2 ^ j))%Q.
Proof.
  intros Hj Hn.
  assert (Hpj : (0 < 2 ^ j)%Z) by (apply Z.pow_pos_nonneg; lia).
  unfold true_div. destruct (Z.eqb_spec (2 ^ j) 0) as [|_]; [lia|].
  apply (round_to_double_exact n j); auto.
  - destruct (2 ^ j)%Z; try lia. cbn. lia.
  - destruct (2 ^ j)%Z; try lia. cbn. lia.
Qed.

Lemma digits_value_uint (u : Decimal.uint) (acc : Z) :
  digits_value acc (chars_of_uint u) = Some (uint_value acc u).
Proof.
  unfold chars_of_uint. revert acc; induction u; intros acc;
    [reflexivity|..]; cbn; rewrite IHu; do 2 f_equal; lia.
Qed.

Lemma uint_value_acc (u : Decimal.uint) (acc : positive) :
  Z.pos (Pos.of_uint_acc u acc) = uint_value (Z.pos acc) u.
Proof.
  revert acc; induction u; intros acc; cbn [Pos.of_uint_acc uint_value];
    [reflexivity|..]; rewrite IHu; f_equal; lia.
Qed.

Lemma uint_value_of_uint (u : Decimal.uint) :
  Z.of_N (Pos.of_uint u) = uint_value 0 u.
Proof.
  induction u; cbn [Pos.of_uint uint_value]; [reflexivity|exact IHu|..];
    cbn [Z.of_N]; rewrite uint_value_acc; reflexivity.
Qed.

(** The numeral of a positive number starts with a digit other than 0. *)
Lemma to_uint_head (p : positive) :
  match Pos.to_uint p with
  | Decimal.Nil | Decimal.D0 _ => False
  | _ => True
  end.
Proof.
  pose proof (Unsigned.to_of (Pos.to_uint p)) as H.
  rewrite Unsigned.of_to in H.
  change (N.to_uint (N.pos p)) with (Pos.to_uint p) in H.
  pose proof (Unsigned.to_uint_nonnil p) as Hn.
  destruct (Pos.to_uint p) as [|u| | | | | | | | |] eqn:E; auto.
  unfold Decimal.unorm in H. rewrite nzhead_D0 in H.
  destruct (Decimal.nzhead u) as [|v| | | | | | | | |] eqn:Ev;
    try discriminate.
  - injection H as ->.
    pose proof (Unsigned.of_to p) as Hp. rewrite E in Hp. discriminate Hp.
  - now apply nzhead_nonzero in Ev.
Qed.

(** What [str] prints for a natural number reads back as that number. *)
Lemma read_nat_str_of_int (n : Z) :
  (0 <= n)%Z -> read_nat (str_of_int n) = Some n.
Proof.
  intros Hn. unfold str_of_int.
  destruct n as [|p|p]; [reflexivity| |lia].
  cbn [Z.to_int NilZero.string_of_int].
  pose proof (to_uint_head p) as Hh.
  pose proof (digits_value_uint (Pos.to_uint p) 0) as Hd.
  rewrite <- uint_value_of_uint, Unsigned.of_to in Hd. cbn [Z.of_N] in Hd.
  unfold chars_of_uint in Hd.
  unfold NilZero.string_of_uint.
  destruct (Pos.to_uint p) as [|u|u|u|u|u|u|u|u|u|u]; try contradiction;
    (destruct u; [exact Hd|..]; exact Hd).
Qed.

Lemma digit_value_digit (d : Z) :
  (0 <= d <= 9)%Z -> digit_value (digit d) = Some d.
Proof.
  intros H.
  assert (d = 0 \/ d = 1 \/ d = 2 \/ d = 3 \/ d = 4 \/ d = 5 \/ d = 6
          \/ d = 7 \/ d = 8 \/ d = 9)%Z as Hd by lia.
  repeat (destruct Hd as [->|Hd]; [reflexivity|]). now subst d.
Qed.

(** What [.2f] prints for [k] hundredths reads back as [k]. *)
Lemma read_hundredths_two_decimals (k : Z) :
  (0 <= k)%Z -> read_hundredths (two_decimals k) = Some k.
Proof.
  intros Hk. unfold read_hundredths, two_decimals.
  rewrite rev_app_distr. cbn [rev app]. rewrite N.eqb_refl, rev_involutive.
  rewrite read_nat_str_of_int by (apply Z.div_pos; lia).
  rewrite !digit_value_digit
    by (match goal with
        | |- (0 <= ?a mod 10 <= 9)%Z =>
            pose proof (Z.mod_pos_bound a 10 ltac:(lia)); lia
        end).
  f_equal.
  pose proof (Z.div_mod k 10 ltac:(lia)).
  pose proof (Z.div_mod (k / 10) 10 ltac:(lia)).
  replace (k / 100)%Z with (k / 10 / 10)%Z
    by (rewrite Z.div_div by lia; reflexivity).
  lia.
Qed.

(** The size of a count from [2 ^ j] on, in units of [2 ^ j]. *)
Lemma size_in_unit (n j : Z) (suffix : pystr) :
  (0 <= j)%Z -> (2 ^ j <= n < 2 ^ 53)%Z ->
  exists k s,
    (2 * Z.abs (100 * n - k * 2 ^ j) <= 2 ^ j)%Z /\
    read_hundredths s = Some k /\
    (q <- true_div n (2 ^ j) ;; Ok (format_2f q ++ suffix))
    = Ok (s ++ suffix).
Proof.
  intros Hj Hn.
  assert (Hpj : (0 < 2 ^ j)%Z) by (apply Z.pow_pos_nonneg; lia).
  destruct (true_div_exact n j Hj Hn) as (y & -> & Hy).
  destruct (format_2f_near y n (2 ^ j) ltac:(lia) Hpj Hy)
    as (k & Hk & Hnear & Hfmt).
  exists k, (two_decimals k). cbn [bind]. rewrite Hfmt.
  auto using read_hundredths_two_decimals.
Qed.

Lemma size_str_ok (n : Z) :
  (n < 2 ^ 53)%Z -> exists s, size_str n = Ok s.
Proof.
  intros Hn. unfold size_str.
  change (1024 * 1024)%Z with (2 ^ 20)%Z. change 1024%Z with (2 ^ 10)%Z.
  destruct (Z.leb_spec (2 ^ 20) n) as [H20|H20].
  - destruct (size_in_unit n 20 (utf8 " MB") ltac:(lia) (conj H20 Hn))
      as (k & s & _ & _ & ->). eauto.
  - destruct (Z.leb_spec (2 ^ 10) n) as [H10|H10]; [|eauto].
    destruct (size_in_unit n 10 (utf8 " KB") ltac:(lia) (conj H10 Hn))
      as (k & s & _ & _ & ->). eauto.
Qed.

End Renderer.

(** ** Claims about the renderer *)

Section RendererClaims.



(** C5, as the code has it.  For a non-negative byte count below 2^53,
    where the division by the unit is exact in double precision, the
    size string is the count in megabytes with two decimals and [" MB"]
    from 1,048,576 on, the count in kilobytes with two decimals and
    [" KB"] from 1,024 on, and otherwise the raw count and [" bytes"].
    Two decimals means: a numeral without leading zeros, a point and two
    digits, which reads as the number of hundredths nearest to the
    quotient.  So 500 gives "500 bytes", 2048 gives "2.00 KB" and
    5*1024*1024 gives "5.00 MB". *)
Theorem size_str_units (n : Z) :
  (0 <= n < 9007199254740992)%Z ->
  size_in_units n /\
  size_str 500 = Ok (utf8 "500 bytes") /\
  size_str 2048 = Ok (utf8 "2.00 KB") /\
  size_str (5 * 1024 * 1024) = Ok (utf8 "5.00 MB").
Proof.
  intros [Hn Hhi]. change 9007199254740992%Z with (2 ^ 53)%Z in Hhi.
  split; [|repeat split]. unfold size_in_units, size_str.
  change (1024 * 1024)%Z with (2 ^ 20)%Z.
  change 1048576%Z with (2 ^ 20)%Z. change 1024%Z with (2 ^ 10)%Z.
  split; [|split].
  - intros H. rewrite (proj2 (Z.leb_le _ _) H).
    apply size_in_unit; lia.
  - intros [H1 H2].
    rewrite (proj2 (Z.leb_gt _ _) H2), (proj2 (Z.leb_le _ _) H1).
    apply size_in_unit; lia.
  - intros H. assert (H' : (n < 2 ^ 20)%Z) by lia.
    rewrite (proj2 (Z.leb_gt _ _) H'), (proj2 (Z.leb_gt _ _) H).
    exists (str_of_int n). split; [now apply read_nat_str_of_int|reflexivity].
Qed.

Lemma size_str_units_witness :
  size_in_units 1536 /\
  size_str 500 = Ok (utf8 "500 bytes") /\
  size_str 2048 = Ok (utf8 "2.00 KB") /\
  size_str (5 * 1024 * 1024) = Ok (utf8 "5.00 MB").
Proof. apply (size_str_units 1536). lia. Defined.

(** C5 as written fails for large counts: the quotient of 10^30 by
    1,048,576 is rounded to a double before it is printed, and the
    numeral printed is not within half a hundredth of the quotient. *)
Lemma size_in_units_fails :
  ~ size_in_units 1000000000000000000000000000000.
Proof.
  intros [H _]. destruct (H ltac:(lia)) as (k & s & Hnear & Hread & Hsize).
  assert (Hs : size_str 1000000000000000000000000000000
               = Ok (utf8 "953674316406250018963456.00" ++ utf8 " MB"))
    by (vm_compute; reflexivity).
  rewrite Hs in Hsize. apply Ok_inj, app_inv_tail in Hsize. subst s.
  vm_compute in Hread. injection Hread as <-.
  vm_compute in Hnear. now apply Hnear.
Qed.

(** Beyond the range of doubles the division raises. *)
Example size_str_overflow :
  size_str (2 ^ 1044) = Raise OverflowError.
Proof. vm_compute. reflexivity. Qed.

End RendererClaims.

(** * The aggregator *)

Section AggregatorClaims.

Variable world : Type.
Variable get_languages : pystr -> world -> response dict * world.

Local Abbreviation aggregate := (aggregate world get_languages).
Local Abbreviation qualifies := (qualifies world get_languages).

Lemma aggregate_fork (r : repo) (rest : list repo) (d : dict) (w : world) :
  fork r = true -> aggregate (r :: rest) d w = aggregate rest d w.
Proof. intros H. simpl. now rewrite H. Qed.

Lemma aggregate_failed (r : repo) (rest : list repo) (d : dict) (w : world) :
  fork r = false ->
  status_code (fst (get_languages (languages_url r) w)) <> 200%Z ->
  aggregate (r :: rest) d w =
  aggregate rest d (snd (get_languages (languages_url r) w)).
Proof.
  intros Hf Hs. simpl. rewrite Hf.
  destruct (get_languages (languages_url r) w) as [resp w']. simpl in *.
  now destruct (Z.eqb_spec (status_code resp) 200).
Qed.

(** C6. The aggregator skips every fork without a request, whatever its
    language data: the result is that of the sequence without its forks.
    A language fetch with a status other than 200 adds nothing and the
    loop goes on with the next repository.  When no repository
    qualifies, the mapping returned is empty. *)
Theorem aggregate_policy :
  (forall repos d w,
     aggregate repos d w
     = aggregate (filter (fun r => negb (fork r)) repos) d w) /\
  (forall r rest d w,
     fork r = true -> aggregate (r :: rest) d w = aggregate rest d w) /\
  (forall r rest d w,
     fork r = false ->
     status_code (fst (get_languages (languages_url r) w)) <> 200%Z ->
     aggregate (r :: rest) d w =
     aggregate rest d (snd (get_languages (languages_url r) w))) /\
  (forall repos w,
     (forall r w', In r repos -> ~ qualifies r w') ->
     fst (aggregate repos [] w) = []).
Proof.
  split; [|split; [exact aggregate_fork|split; [exact aggregate_failed|]]].
  - intros repos. induction repos as [|r rest IH]; intros d w; [reflexivity|].
    destruct (fork r) eqn:Hf.
    + rewrite (aggregate_fork _ _ _ _ Hf). cbn [filter]. rewrite Hf.
      apply IH.
    + cbn [filter]. rewrite Hf. cbn [negb]. simpl. rewrite Hf.
      destruct (get_languages (languages_url r) w) as [resp w'].
      now destruct (status_code resp =? 200)%Z; rewrite IH.
  - intros repos. induction repos as [|r rest IH]; intros w Hq; [reflexivity|].
    assert (Hrest : forall r0 w', In r0 rest -> ~ qualifies r0 w')
      by (intros r0 w' Hin; apply Hq; now right).
    destruct (fork r) eqn:Hf.
    + rewrite (aggregate_fork _ _ _ _ Hf). now apply IH.
    + rewrite aggregate_failed; [now apply IH|exact Hf|].
      intros Hs. apply (Hq r w); [now left|]. now split.
Qed.

End AggregatorClaims.

Lemma aggregate_policy_witness :
  fst (aggregate unit
         (fun _ w => ({| status_code := 404%Z; json := [] |}, w))
         [ {| fork := true; languages_url := utf8 "u/a" |};
           {| fork := false; languages_url := utf8 "u/b" |} ] [] tt) = [].
Proof.
  apply (proj2 (proj2 (proj2
    (aggregate_policy unit
       (fun _ w => ({| status_code := 404%Z; json := [] |}, w)))))).
  intros r w' _ [_ H]. simpl in H. discriminate H.
Defined.

(** * More about the aggregator *)

Section DictFacts.

Lemma str_eqb_eq (a b : pystr) : str_eqb a b = true <-> a = b.
Proof.
  revert b; induction a as [|x a IH]; intros [|y b]; simpl;
    try (split; [discriminate|discriminate]); [tauto|].
  rewrite andb_true_iff, N.eqb_eq, IH. split.
  - now intros [-> ->].
  - intros [= -> ->]. auto.
Qed.

Lemma str_eqb_refl (a : pystr) : str_eqb a a = true.
Proof. now apply str_eqb_eq. Qed.

Lemma str_eqb_neq (a b : pystr) : a <> b -> str_eqb a b = false.
Proof.
  intros H. destruct (str_eqb a b) eqn:E; [|reflexivity].
  now apply str_eqb_eq in E.
Qed.

Lemma dict_get_add (lang k : pystr) (n : Z) (d : dict) :
  dict_get lang (dict_add k n d)
  = (dict_get lang d + if str_eqb k lang then n else 0)%Z.
Proof.
  induction d as [|[k' v] d IH]; simpl.
  - destruct (str_eqb k lang); lia.
  - destruct (str_eqb k' k) eqn:Hk; simpl.
    + apply str_eqb_eq in Hk. subst k'.
      destruct (str_eqb k lang); lia.
    + destruct (str_eqb k' lang) eqn:Hl; [|exact IH].
      apply str_eqb_eq in Hl. subst k'.
      destruct (str_eqb k lang) eqn:Hkl; [|lia].
      apply str_eqb_eq in Hkl. subst k. now rewrite str_eqb_refl in Hk.
Qed.

Lemma dict_get_add_languages (lang : pystr) (languages d : dict) :
  dict_get lang (add_languages languages d)
  = (dict_get lang d + bytes_for lang languages)%Z.
Proof.
  unfold add_languages.
  revert d; induction languages as [|[k v] l IH]; intros d; simpl.
  - lia.
  - rewrite IH, dict_get_add. destruct (str_eqb k lang); lia.
Qed.

(** A known language keeps its place; a new one goes to the end. *)
Lemma dict_add_keys (k : pystr) (n : Z) (d : dict) :
  map fst (dict_add k n d)
  = if existsb (fun k' => str_eqb k' k) (map fst d)
    then map fst d else map fst d ++ [k].
Proof.
  induction d as [|[k' v] d IH]; simpl; [reflexivity|].
  destruct (str_eqb k' k); simpl; [reflexivity|].
  rewrite IH. now destruct (existsb _ (map fst d)).
Qed.

Lemma dict_add_NoDup (k : pystr) (n : Z) (d : dict) :
  NoDup (map fst d) -> NoDup (map fst (dict_add k n d)).
Proof.
  intros H. rewrite dict_add_keys.
  destruct (existsb (fun k' => str_eqb k' k) (map fst d)) eqn:He;
    [exact H|].
  apply NoDup_app; [exact H|repeat constructor; intros []|].
  intros x Hx [->|[]].
  assert (existsb (fun k' => str_eqb k' x) (map fst d) = true)
    by (apply existsb_exists; exists x; split; [exact Hx|apply str_eqb_refl]).
  congruence.
Qed.

Lemma add_languages_NoDup (languages d : dict) :
  NoDup (map fst d) -> NoDup (map fst (add_languages languages d)).
Proof.
  unfold add_languages.
  revert d; induction languages as [|[k v] l IH]; intros d H; simpl;
    [exact H|].
  now apply IH, dict_add_NoDup.
Qed.

(** A property of entries that additions keep. *)
Lemma dict_add_Forall (K : pystr -> Prop) (k : pystr) (n : Z) (d : dict) :
  K k -> (0 < n)%Z ->
  Forall (fun kv => K (fst kv) /\ (0 < snd kv)%Z) d ->
  Forall (fun kv => K (fst kv) /\ (0 < snd kv)%Z) (dict_add k n d).
Proof.
  intros Hk Hn. induction d as [|[k' v] d IH]; intros H; simpl.
  - constructor; [simpl; split; [exact Hk|lia]|constructor].
  - inversion H as [|? ? [Hk' Hv] Hd]; subst. simpl in *.
    destruct (str_eqb k' k).
    + constructor; [simpl; split; [exact Hk'|lia]|exact Hd].
    + constructor; [now split|now apply IH].
Qed.

Lemma add_languages_Forall (K : pystr -> Prop) (languages d : dict) :
  Forall (fun kv => K (fst kv) /\ (0 < snd kv)%Z) languages ->
  Forall (fun kv => K (fst kv) /\ (0 < snd kv)%Z) d ->
  Forall (fun kv => K (fst kv) /\ (0 < snd kv)%Z) (add_languages languages d).
Proof.
  unfold add_languages.
  revert d; induction languages as [|[k v] l IH]; intros d Hl Hd; simpl;
    [exact Hd|].
  inversion Hl as [|? ? [Hk Hv] Hl']; subst. simpl in *.
  apply IH; [exact Hl'|]. now apply dict_add_Forall.
Qed.

End DictFacts.

Section AggregatorFacts.

Variable world : Type.
Variable get_languages : pystr -> world -> response dict * world.

Local Abbreviation aggregate := (aggregate world get_languages).
Local Abbreviation fetched := (fetched world get_languages).

Lemma aggregate_invariant (P : dict -> Prop) :
  (forall url w d, P d ->
     P (add_languages (json (fst (get_languages url w))) d)) ->
  forall repos d w, P d -> P (fst (aggregate repos d w)).
Proof.
  intros Hadd repos. induction repos as [|r rest IH]; intros d w Hd;
    [exact Hd|].
  simpl. destruct (fork r); [now apply IH|].
  specialize (Hadd (languages_url r) w d Hd).
  destruct (get_languages (languages_url r) w) as [resp w'].
  destruct (status_code resp =? 200)%Z; now apply IH.
Qed.

(** Per language, the mapping returned holds what it held before plus
    what the responses used by the loop report for that language: no
    byte is lost or counted twice. *)
Theorem aggregate_counts (lang : pystr) (repos : list repo) (d : dict)
  (w : world) :
  dict_get lang (fst (aggregate repos d w))
  = (dict_get lang d
     + fold_right Z.add 0 (map (bytes_for lang) (fetched repos w)))%Z.
Proof.
  revert d w; induction repos as [|r rest IH]; intros d w; simpl; [lia|].
  destruct (fork r); [apply IH|].
  destruct (get_languages (languages_url r) w) as [resp w'].
  destruct (status_code resp =? 200)%Z; [|apply IH].
  rewrite IH, dict_get_add_languages. simpl. lia.
Qed.

(** The mapping built by the loop holds every language once. *)
Theorem aggregate_keys_unique (repos : list repo) (w : world) :
  NoDup (map fst (fst (aggregate repos [] w))).
Proof.
  apply (aggregate_invariant (fun d => NoDup (map fst d))).
  - intros url w0 d. apply add_languages_NoDup.
  - constructor.
Qed.

(** When the server reports only positive byte counts, under names that
    all have a property [K], the mapping holds only positive counts
    under names with that property. *)
Theorem aggregate_positive (K : pystr -> Prop) (repos : list repo)
  (w : world) :
  (forall url w0,
     Forall (fun kv => K (fst kv) /\ (0 < snd kv)%Z)
            (json (fst (get_languages url w0)))) ->
  Forall (fun kv => K (fst kv) /\ (0 < snd kv)%Z)
         (fst (aggregate repos [] w)).
Proof.
  intros Hserver.
  apply (aggregate_invariant
           (Forall (fun kv => K (fst kv) /\ (0 < snd kv)%Z))).
  - intros url w0 d Hd. now apply add_languages_Forall.
  - constructor.
Qed.

End AggregatorFacts.

Lemma aggregate_positive_witness :
  Forall (fun kv => True /\ (0 < snd kv)%Z)
    (fst (aggregate unit
            (fun _ w => ({| status_code := 200%Z;
                            json := [(utf8 "Rust", 7%Z)] |}, w))
            [ {| fork := false; languages_url := utf8 "u/a" |};
              {| fork := false; languages_url := utf8 "u/b" |} ] [] tt)).
Proof.
  apply (aggregate_positive unit
           (fun _ w => ({| status_code := 200%Z;
                           json := [(utf8 "Rust", 7%Z)] |}, w))
           (fun _ => True)).
  intros url w0. simpl. repeat constructor.
Defined.

Section PaginationFacts.

Variable world : Type.
(** A server whose pages do not depend on the requests made before. *)
Variable pages : Z -> response (list repo).

Lemma list_repos_pages (n start fuel : nat) (acc : list repo) (w : world) :
  n < fuel ->
  (forall i, start <= i < start + n ->
     status_code (pages (Z.of_nat i)) = 200%Z /\
     json (pages (Z.of_nat i)) <> []) ->
  list_repos world (fun page w => (pages page, w)) fuel (Z.of_nat start) acc w
  = list_repos world (fun page w => (pages page, w)) (fuel - n) (Z.of_nat (start + n))
      (acc ++ concat (map (fun i => json (pages (Z.of_nat i))) (seq start n)))
      w.
Proof.
  revert start fuel acc; induction n as [|n IH]; intros start fuel acc Hf Hp.
  - simpl. now rewrite app_nil_r, Nat.sub_0_r, Nat.add_0_r.
  - destruct fuel as [|fuel]; [lia|].
    destruct (Hp start ltac:(lia)) as [Hs Hj].
    cbn [list_repos]. rewrite Hs. cbn [Z.eqb negb Pos.eqb].
    destruct (json (pages (Z.of_nat start))) as [|r0 rs] eqn:Hjs;
      [congruence|].
    replace (Z.of_nat start + 1)%Z with (Z.of_nat (S start)) by lia.
    rewrite IH by (try lia; intros i Hi; apply Hp; lia).
    cbn [seq map concat]. rewrite Hjs, <- app_assoc.
    replace (S start + n) with (start + S n) by lia.
    reflexivity.
Qed.

(** Pagination gathers the pages in order, up to the first empty page,
    and a page that fails discards what was gathered. *)
Theorem list_repos_collects (n fuel : nat) (w : world) :
  n < fuel ->
  (forall i, 1 <= i < 1 + n ->
     status_code (pages (Z.of_nat i)) = 200%Z /\
     json (pages (Z.of_nat i)) <> []) ->
  (status_code (pages (Z.of_nat (1 + n))) = 200%Z ->
   json (pages (Z.of_nat (1 + n))) = [] ->
   list_repos world (fun page w => (pages page, w)) fuel 1%Z [] w
   = Some (Some (concat (map (fun i => json (pages (Z.of_nat i)))
                             (seq 1 n))), w)) /\
  (status_code (pages (Z.of_nat (1 + n))) <> 200%Z ->
   list_repos world (fun page w => (pages page, w)) fuel 1%Z [] w = Some (None, w)).
Proof.
  intros Hf Hp.
  change 1%Z with (Z.of_nat 1).
  rewrite (list_repos_pages n 1 fuel [] w Hf Hp). cbn [app].
  destruct (fuel - n) as [|fuel'] eqn:Hfuel; [lia|].
  cbn [list_repos]. split.
  - intros Hs Hj. rewrite Hs, Hj. reflexivity.
  - intros Hs. now destruct (Z.eqb_spec (status_code (pages (Z.of_nat (1 + n)))) 200).
Qed.

End PaginationFacts.

Lemma list_repos_collects_witness :
  list_repos unit
    (fun page w =>
       ((if (page =? 1)%Z
         then {| status_code := 200%Z;
                 json := [ {| fork := false; languages_url := utf8 "u/a" |} ] |}
         else {| status_code := 200%Z; json := [] |}), w))
    5 1%Z [] tt
  = Some (Some [ {| fork := false; languages_url := utf8 "u/a" |} ], tt).
Proof.
  apply (proj1 (list_repos_collects unit
    (fun page =>
       if (page =? 1)%Z
       then {| status_code := 200%Z;
               json := [ {| fork := false; languages_url := utf8 "u/a" |} ] |}
       else {| status_code := 200%Z; json := [] |})
    1 5 tt ltac:(lia)
    ltac:(intros i Hi; assert (i = 1) as -> by lia;
          split; [reflexivity|discriminate])));
    reflexivity.
Defined.

(** * More about the ranker *)

Section RankerFacts.

Lemma filter_insert_desc (q : Q) (x : entry) (l : list entry) :
  filter (fun e => Qeq_bool (percent_of e) q) (insert_desc x l)
  = if Qeq_bool (percent_of x) q
    then x :: filter (fun e => Qeq_bool (percent_of e) q) l
    else filter (fun e => Qeq_bool (percent_of e) q) l.
Proof.
  induction l as [|y l IH]; [reflexivity|].
  cbn [insert_desc].
  destruct (Qle_bool (percent_of y) (percent_of x)) eqn:Hle; [reflexivity|].
  cbn [filter]. rewrite IH.
  destruct (Qeq_bool (percent_of x) q) eqn:Hx; [|reflexivity].
  destruct (Qeq_bool (percent_of y) q) eqn:Hy; [|reflexivity].
  apply Qeq_bool_iff in Hx, Hy.
  assert (Hc : Qle_bool (percent_of y) (percent_of x) = true).
  { apply Qle_bool_iff. rewrite Hx, Hy. apply Qle_refl. }
  congruence.
Qed.

Lemma filter_sort_desc (q : Q) (l : list entry) :
  filter (fun e => Qeq_bool (percent_of e) q) (sort_desc l)
  = filter (fun e => Qeq_bool (percent_of e) q) l.
Proof.
  induction l as [|x l IH]; [reflexivity|].
  cbn [sort_desc fold_right]. fold (sort_desc l).
  rewrite filter_insert_desc, IH. reflexivity.
Qed.

Lemma calculate_percentages_inv (d : dict) (r : list entry) :
  calculate_percentages d = Ok r ->
  r = sort_desc (map (make_entry (sum_values d)) d).
Proof.
  unfold calculate_percentages. destruct d as [|kv d].
  - now intros <-%Ok_inj.
  - destruct (sum_values (kv :: d) =? 0)%Z; [discriminate|].
    now intros <-%Ok_inj.
Qed.

Lemma sum_values_nonneg (d : dict) :
  Forall (fun kv => (0 <= snd kv)%Z) d -> (0 <= sum_values d)%Z.
Proof.
  induction d as [|x d IH]; intros H; [now compute|].
  inversion H as [|? ? Hx Hd]; subst. rewrite sum_values_cons.
  specialize (IH Hd). lia.
Qed.

Lemma value_le_total (d : dict) (kv : pystr * Z) :
  Forall (fun kv => (0 <= snd kv)%Z) d -> In kv d ->
  (0 <= snd kv <= sum_values d)%Z /\ (0 <= sum_values d)%Z.
Proof.
  induction d as [|kv' d IH]; intros Hd Hin; [destruct Hin|].
  inversion Hd as [|? ? Hkv Hd']; subst. rewrite sum_values_cons.
  assert (Hsum := sum_values_nonneg d Hd').
  destruct Hin as [->|Hin]; [lia|].
  destruct (IH Hd' Hin). lia.
Qed.

Lemma make_entry_bounds (total : Z) (kv : pystr * Z) :
  (0 <= snd kv <= total)%Z -> (0 < total)%Z ->
  (0 <= percent_of (make_entry total kv))%Q /\
  (percent_of (make_entry total kv) <= 100)%Q.
Proof.
  intros Hv Ht. destruct total as [|t|t]; try lia.
  unfold percent_of, make_entry. cbn [fst snd].
  unfold Qle, Qdiv, Qmult, Qinv, inject_Z. cbn [Qnum Qden]. split; lia.
Qed.

End RankerFacts.

Section RankerExtras.

(** Entries with the same percentage appear in the ranking in the order
    the mapping had them. *)
Theorem ranking_stable (d : dict) (r : list entry) (q : Q) :
  calculate_percentages d = Ok r ->
  filter (fun e => Qeq_bool (percent_of e) q) r
  = filter (fun e => Qeq_bool (percent_of e) q)
           (map (make_entry (sum_values d)) d).
Proof.
  intros ->%calculate_percentages_inv. apply filter_sort_desc.
Qed.

Lemma ranking_stable_witness :
  filter (fun e => Qeq_bool (percent_of e) 25)
    (sort_desc
       (map (make_entry 4)
            [(utf8 "C", 1%Z); (utf8 "Go", 2%Z); (utf8 "Rust", 1%Z)]))
  = filter (fun e => Qeq_bool (percent_of e) 25)
      (map (make_entry
              (sum_values [(utf8 "C", 1%Z); (utf8 "Go", 2%Z); (utf8 "Rust", 1%Z)]))
           [(utf8 "C", 1%Z); (utf8 "Go", 2%Z); (utf8 "Rust", 1%Z)]).
Proof.
  apply (ranking_stable
           [(utf8 "C", 1%Z); (utf8 "Go", 2%Z); (utf8 "Rust", 1%Z)]).
  reflexivity.
Defined.

(** For non-negative byte counts with a positive total every percentage
    of the ranking lies between 0 and 100. *)
Theorem percentages_in_range (d : dict) (r : list entry) :
  Forall (fun kv => (0 <= snd kv)%Z) d ->
  (0 < sum_values d)%Z ->
  calculate_percentages d = Ok r ->
  Forall (fun e => (0 <= percent_of e)%Q /\ (percent_of e <= 100)%Q) r.
Proof.
  intros Hd Ht ->%calculate_percentages_inv.
  eapply Permutation_Forall; [apply Permutation_sym, sort_desc_perm|].
  rewrite Forall_forall. intros e [kv [<- Hin]]%in_map_iff.
  apply make_entry_bounds; [|exact Ht].
  now apply value_le_total.
Qed.

Lemma percentages_in_range_witness :
  Forall (fun e => (0 <= percent_of e)%Q /\ (percent_of e <= 100)%Q)
    (sort_desc (map (make_entry 4) [(utf8 "C", 1%Z); (utf8 "Go", 3%Z)])).
Proof.
  apply (percentages_in_range [(utf8 "C", 1%Z); (utf8 "Go", 3%Z)]).
  - repeat constructor; simpl; lia.
  - reflexivity.
  - reflexivity.
Defined.

End RankerExtras.

(** * More about the renderer *)

Section RendererFacts.

Lemma bar_length (percent : Q) :
  length (bar percent)
  = Z.to_nat (int_of_float (inject_Z 20 * percent / 100))
    + Z.to_nat (20 - int_of_float (inject_Z 20 * percent / 100)).
Proof. unfold bar, str_mul. now rewrite length_app, !repeat_length. Qed.

Lemma quot_range (a b : Z) :
  (0 < b)%Z ->
  ((0 <= Z.quot a b <= 20)%Z <-> (- b < a < 21 * b)%Z).
Proof.
  intros Hb. pose proof (Z.quot_rem' a b) as Hq.
  destruct (Z.le_gt_cases 0 a) as [Ha|Ha].
  - pose proof (Z.rem_bound_pos a b Ha Hb).
    set (q := Z.quot a b) in *. set (r := Z.rem a b) in *.
    split; intros H1.
    + nia.
    + assert (q < 21)%Z by nia. assert (-1 < q)%Z by nia. lia.
  - pose proof (Z.rem_bound_pos_neg a b Hb ltac:(lia)).
    set (q := Z.quot a b) in *. set (r := Z.rem a b) in *.
    split; intros H1.
    + assert (q = 0 \/ 1 <= q)%Z as [->|] by lia; nia.
    + assert (q < 1)%Z by nia. assert (-1 < q)%Z by nia. lia.
Qed.

End RendererFacts.

Section RendererExtras.

(** The bar has its 20 glyphs exactly for percentages strictly between
    -5 and 105; beyond that range it is longer. *)
Theorem bar_length_20_iff (percent : Q) :
  length (bar percent) = 20 <-> (-5 # 1 < percent)%Q /\ (percent < 105)%Q.
Proof.
  rewrite bar_length. destruct percent as [n d].
  unfold int_of_float, Qlt, Qdiv, Qmult, Qinv, inject_Z. cbn [Qnum Qden].
  pose proof (quot_range (20 * n * 1) (Zpos (1 * d * 100)) ltac:(lia)) as Hq.
  set (q := Z.quot (20 * n * 1) (Zpos (1 * d * 100))) in *.
  split.
  - intros H. assert (Hr : (0 <= q <= 20)%Z) by lia.
    apply Hq in Hr. lia.
  - intros H.
    assert (Hr : (- Zpos (1 * d * 100) < 20 * n * 1
                  < 21 * Zpos (1 * d * 100))%Z) by lia.
    apply Hq in Hr. lia.
Qed.

Lemma bar_length_20_iff_witness :
  length (bar (209 # 2)) = 20 /\ length (bar (-5 # 1)) <> 20.
Proof.
  split.
  - apply (proj2 (bar_length_20_iff (209 # 2))). split; reflexivity.
  - intros H. apply (proj1 (bar_length_20_iff (-5 # 1))) in H.
    destruct H as [H _]. discriminate H.
Defined.

End RendererExtras.

(** * The characters of the rendered table *)

Section TableChars.

Ltac in_list :=
  unfold renderer_chars; simpl; repeat (first [left; reflexivity | right]).

(** A set of characters [P] that holds all the renderer writes itself. *)
Variable P : char -> bool.
Hypothesis P_renderer : forallb P renderer_chars = true.

Lemma P_char (c : char) : In c renderer_chars -> P c = true.
Proof. apply forallb_forall, P_renderer. Qed.

Lemma P_digit (m : Z) : (0 <= m <= 9)%Z -> P (digit m) = true.
Proof.
  intros H. apply P_char.
  assert (m = 0 \/ m = 1 \/ m = 2 \/ m = 3 \/ m = 4 \/ m = 5 \/ m = 6
          \/ m = 7 \/ m = 8 \/ m = 9)%Z as Hm by lia.
  repeat (destruct Hm as [->|Hm]; [in_list|]). subst m. in_list.
Qed.

Lemma P_uint (u : Decimal.uint) :
  forallb P (map N_of_ascii
               (list_ascii_of_string (NilEmpty.string_of_uint u))) = true.
Proof.
  induction u; simpl; [reflexivity| | | | | | | | | |];
    rewrite IHu, andb_true_r; apply P_char; in_list.
Qed.

Lemma P_str_of_int (n : Z) : forallb P (str_of_int n) = true.
Proof.
  unfold str_of_int, NilZero.string_of_int, NilZero.string_of_uint.
  destruct (Z.to_int n) as [u|u].
  - destruct u; try apply P_uint.
    simpl. rewrite andb_true_r. apply P_char; in_list.
  - cbn [list_ascii_of_string map forallb].
    apply andb_true_iff. split; [apply P_char; in_list|].
    destruct u; try apply P_uint.
    simpl. rewrite andb_true_r. apply P_char; in_list.
Qed.

Lemma P_two_decimals (k : Z) : forallb P (two_decimals k) = true.
Proof.
  unfold two_decimals. rewrite forallb_app, P_str_of_int.
  cbn [forallb andb].
  rewrite !P_digit
    by (match goal with
        | |- (0 <= ?a mod 10 <= 9)%Z =>
            pose proof (Z.mod_pos_bound a 10 ltac:(lia)); lia
        end).
  rewrite (P_char 46%N) by in_list. reflexivity.
Qed.

Lemma P_format_2f (x : Q) : forallb P (format_2f x) = true.
Proof.
  unfold format_2f. destruct (Qle_bool 0 x); [apply P_two_decimals|].
  cbn [forallb]. rewrite P_two_decimals, (P_char 45%N) by in_list.
  reflexivity.
Qed.

Lemma P_size_str (n : Z) (size : pystr) :
  size_str n = Ok size -> forallb P size = true.
Proof.
  unfold size_str.
  destruct (1024 * 1024 <=? n)%Z; [|destruct (1024 <=? n)%Z];
    try (destruct (true_div _ _) as [q|e]; cbn [bind]; [|discriminate]);
    intros <-%Ok_inj;
    rewrite forallb_app; (rewrite P_format_2f || rewrite P_str_of_int);
    apply forallb_forall; intros c Hc; apply P_char;
    vm_compute in Hc; unfold renderer_chars; simpl; intuition.
Qed.

Lemma P_bar (percent : Q) : forallb P (bar percent) = true.
Proof.
  unfold bar, str_mul. rewrite forallb_app. apply andb_true_iff.
  split; apply forallb_forall; intros c Hc; apply repeat_spec in Hc;
    subst c; apply P_char; in_list.
Qed.

(** A row is a line of such characters and of those of the name, closed
    by one newline. *)
Lemma format_row_body (e : entry) (row : pystr) :
  forallb P (lang_of e) = true ->
  format_row e = Ok row ->
  exists body, row = body ++ [nl] /\ forallb P body = true.
Proof.
  intros Hl. unfold format_row.
  destruct (size_str (bytes_of e)) as [size|x] eqn:Hsize; cbn [bind];
    [|discriminate].
  intros <-%Ok_inj.
  exists (utf8 "| " ++ lang_of e ++ utf8 " | " ++ format_2f (percent_of e)
          ++ utf8 "% " ++ bar (percent_of e) ++ utf8 " | "
          ++ size ++ utf8 " |").
  split; [now rewrite <- !app_assoc|].
  rewrite !forallb_app, Hl, P_format_2f, P_bar, (P_size_str _ _ Hsize).
  cbn [andb].
  rewrite !andb_true_iff. repeat split;
    apply forallb_forall; intros c Hc; apply P_char;
    vm_compute in Hc; unfold renderer_chars; simpl; intuition.
Qed.

End TableChars.

(** * The rendered table and the splicer together *)

Section TableFacts.

Lemma fold_rows_raise (A : Type) (f : A -> result pystr) (l : list A)
    (e : exn) :
  fold_left (fun acc x => markdown <- acc ;; row <- f x ;; Ok (markdown ++ row))
            l (Raise e)
  = Raise e.
Proof. induction l as [|x l IH]; [reflexivity|exact IH]. Qed.

(** The loop over the rows stops at the first row that raises; when it
    ends, the text is the initial one followed by the rows in order. *)
Lemma fold_rows_inv (A : Type) (f : A -> result pystr) (l : list A)
    (init md : pystr) :
  fold_left (fun acc x => markdown <- acc ;; row <- f x ;; Ok (markdown ++ row))
            l (Ok init)
  = Ok md ->
  exists rows,
    Forall2 (fun x row => f x = Ok row) l rows /\ md = init ++ concat rows.
Proof.
  revert init; induction l as [|x l IH]; intros init H; cbn [fold_left] in H.
  - apply Ok_inj in H. subst md. exists []. split; [constructor|].
    cbn [concat]. now rewrite app_nil_r.
  - cbn [bind] in H. destruct (f x) as [row|e] eqn:Hx; cbn [bind] in H.
    + apply IH in H as (rows & HF & ->). exists (row :: rows).
      split; [now constructor|]. cbn [concat]. now rewrite <- app_assoc.
    + rewrite fold_rows_raise in H. discriminate H.
Qed.

Lemma fold_rows_ok (A : Type) (f : A -> result pystr) (l : list A)
    (init : pystr) :
  Forall (fun x => exists row, f x = Ok row) l ->
  exists md,
    fold_left (fun acc x => markdown <- acc ;; row <- f x ;; Ok (markdown ++ row))
              l (Ok init)
    = Ok md.
Proof.
  intros H. revert init; induction H as [|x l [row Hx] _ IH]; intros init;
    cbn [fold_left bind].
  - eauto.
  - rewrite Hx. cbn [bind]. apply IH.
Qed.

Lemma format_stats_markdown_rows (l : list entry) (md : pystr) :
  l <> [] ->
  format_stats_markdown l = Ok md ->
  exists rows,
    Forall2 (fun e row => format_row e = Ok row) l rows /\
    md = table_header ++ concat rows.
Proof.
  destruct l as [|e l]; [congruence|]. intros _.
  unfold format_stats_markdown. apply fold_rows_inv.
Qed.

(** Byte counts below [2 ^ 53] are rendered. *)
Lemma format_stats_markdown_ok (l : list entry) :
  Forall (fun e => (bytes_of e < 9007199254740992)%Z) l ->
  exists md, format_stats_markdown l = Ok md.
Proof.
  intros H. destruct l as [|e0 l0]; [now exists no_data|].
  unfold format_stats_markdown. apply fold_rows_ok.
  eapply Forall_impl; [|exact H]. intros e He. cbv beta in He.
  unfold format_row. destruct (size_str_ok (bytes_of e) He) as [size ->].
  cbn [bind]. eauto.
Qed.

(** Every row is a line of the characters of the renderer and of the
    names. *)
Lemma rows_chars (P : char -> bool) (HP : forallb P renderer_chars = true)
    (l : list entry) (rows : list pystr) :
  (forall e, In e l -> forallb P (lang_of e) = true) ->
  Forall2 (fun e row => format_row e = Ok row) l rows ->
  Forall (fun row => exists body, row = body ++ [nl] /\ forallb P body = true)
         rows.
Proof.
  intros Hnames HF. induction HF as [|e row l rows He HF IH]; constructor.
  - apply (format_row_body P HP e row); [|exact He].
    apply Hnames. now left.
  - apply IH. intros e' He'. apply Hnames. now right.
Qed.

Lemma count_occ_none (P : char -> bool) (c : char) (s : pystr) :
  P c = false -> forallb P s = true -> count_occ N.eq_dec s c = 0.
Proof.
  intros Hc Hs. apply count_occ_not_In. intros Hin.
  rewrite forallb_forall in Hs. specialize (Hs c Hin). congruence.
Qed.

Lemma str_in_chars (p s : pystr) (c : char) :
  str_in p s = true -> In c p -> In c s.
Proof.
  unfold str_in. destruct (str_find p s) as [i|] eqn:Hf; [|discriminate].
  intros _ Hc. apply str_find_Some in Hf as [-> _].
  apply in_or_app; right. apply in_or_app; now left.
Qed.

Lemma update_twice_fixed (t doc : pystr) :
  literal t = true ->
  str_in end_marker t = false ->
  (str_in start_marker doc = true -> str_in end_marker doc = true) ->
  exists doc',
    update_content t doc = Ok doc' /\ update_twice t doc = Ok doc'.
Proof.
  intros Hl Ht Hdoc. unfold update_twice.
  destruct (str_in start_marker doc && str_in end_marker doc) eqn:Hb.
  - apply andb_true_iff in Hb as [Hs He].
    rewrite (update_content_both _ _ Hl Hs He). cbn [bind].
    eexists; split; [reflexivity|].
    destruct (re_sub_keeps_markers (fun _ => stats_section t) doc)
      as [Hs' He']; [|exact Hs|exact He|].
    { intros _. exists (section_title ++ t ++ [nl; nl]).
      unfold stats_section. now rewrite <- !app_assoc. }
    rewrite (update_content_both _ _ Hl Hs' He'). f_equal.
    now apply (re_sub_idempotent t (length doc)).
  - assert (Hs : str_in start_marker doc = false).
    { destruct (str_in start_marker doc); [|reflexivity].
      now rewrite Hdoc in Hb. }
    rewrite (update_content_else _ _ Hb).
    destruct (str_in arrow doc) eqn:Ha.
    + destruct (rsplit_arrow _ Ha) as (a & b & -> & Hab & _). cbn [nth bind].
      eexists; split; [reflexivity|].
      replace (a ++ arrow ++ [nl; nl] ++ stats_section t ++ b)
        with (((a ++ arrow) ++ [nl; nl]) ++ stats_section t ++ b)
        by (now rewrite <- !app_assoc).
      destruct (stats_section_markers t ((a ++ arrow) ++ [nl; nl]) b)
        as [Hs' He'].
      rewrite (update_content_both _ _ Hl Hs' He'). f_equal.
      rewrite Hab, app_assoc in Hs. apply str_in_false_app in Hs as [Hu Hz].
      now apply re_sub_fresh_section.
    + cbn [bind]. eexists; split; [reflexivity|].
      replace (doc ++ [nl; nl] ++ stats_section t)
        with ((doc ++ [nl; nl]) ++ stats_section t ++ [])
        by (now rewrite app_nil_r, <- !app_assoc).
      destruct (stats_section_markers t (doc ++ [nl; nl]) []) as [Hs' He'].
      rewrite (update_content_both _ _ Hl Hs' He'). f_equal.
      now apply re_sub_fresh_section.
Qed.

End TableFacts.

Section TableExtras.



Lemma table_plain_aux (l : list entry) (md : pystr) :
  (forall e, In e l -> forallb plain_char (lang_of e) = true) ->
  format_stats_markdown l = Ok md ->
  literal md = true /\
  str_in start_marker md = false /\
  str_in end_marker md = false.
Proof.
  intros Hnames Hmd.
  assert (Hp : forallb plain_char md = true).
  { destruct l as [|e0 l0]; [apply Ok_inj in Hmd; now subst md|].
    assert (Hne : e0 :: l0 <> []) by discriminate.
    destruct (format_stats_markdown_rows _ md Hne Hmd) as (rows & HF & ->).
    rewrite forallb_app. apply andb_true_iff. split; [reflexivity|].
    pose proof (rows_chars plain_char eq_refl _ _ Hnames HF) as Hrows.
    clear HF Hmd. induction Hrows as [|row rows (body & -> & Hbody) _ IH];
      [reflexivity|].
    cbn [concat]. now rewrite !forallb_app, Hbody, IH. }
  assert (Hlt : ~ In 60%N md).
  { intros Hin. rewrite forallb_forall in Hp. now specialize (Hp _ Hin). }
  split; [|split].
  - unfold literal. apply forallb_forall. intros c Hc.
    rewrite forallb_forall in Hp. specialize (Hp c Hc).
    unfold plain_char in Hp. now apply andb_true_iff in Hp as [Hp _].
  - destruct (str_in start_marker md) eqn:E; [|reflexivity].
    exfalso. apply Hlt. apply (str_in_chars _ _ 60%N E). now left.
  - destruct (str_in end_marker md) eqn:E; [|reflexivity].
    exfalso. apply Hlt. apply (str_in_chars _ _ 60%N E). now left.
Qed.





End TableExtras.

(** * More about the splicer *)

Section SplicerFacts.

Lemma str_in_split (p s : pystr) :
  str_in p s = true -> exists a b, s = a ++ p ++ b.
Proof.
  unfold str_in. destruct (str_find p s) as [i|] eqn:Hf; [|discriminate].
  intros _. apply str_find_Some in Hf as [Hs _]. eauto.
Qed.

Lemma str_in_trans (p q s : pystr) :
  str_in p q = true -> str_in q s = true -> str_in p s = true.
Proof.
  intros [a [b ->]]%str_in_split [c [d ->]]%str_in_split.
  replace (c ++ (a ++ p ++ b) ++ d) with ((c ++ a) ++ p ++ (b ++ d))
    by (now rewrite <- !app_assoc).
  apply str_in_mid.
Qed.

(** Both markers end in the delimiter. *)
Lemma marker_has_arrow (doc : pystr) :
  str_in start_marker doc = true \/ str_in end_marker doc = true ->
  str_in arrow doc = true.
Proof.
  intros [H|H]; eapply str_in_trans; try exact H; reflexivity.
Qed.

Lemma update_content_literal_ok (t doc : pystr) :
  literal t = true -> exists doc', update_content t doc = Ok doc'.
Proof.
  intros Hl.
  destruct (str_in start_marker doc && str_in end_marker doc) eqn:Hb.
  - apply andb_true_iff in Hb as [Hs He].
    rewrite (update_content_both _ _ Hl Hs He). eauto.
  - rewrite (update_content_else _ _ Hb).
    destruct (str_in arrow doc); eauto.
Qed.

End SplicerFacts.

Section SplicerExtras.

(** A document without any [-->] gets the section appended after a blank
    line, with the table text as it is, backslashes included. *)
Theorem append_without_arrow (t doc : pystr) :
  str_in arrow doc = false ->
  update_content t doc = Ok (doc ++ [nl; nl] ++ stats_section t).
Proof.
  intros Ha.
  assert (Hs : str_in start_marker doc = false).
  { destruct (str_in start_marker doc) eqn:E; [|reflexivity].
    rewrite marker_has_arrow in Ha by (now left). discriminate. }
  rewrite update_content_else by (now rewrite Hs). now rewrite Ha.
Qed.

Lemma append_without_arrow_witness :
  update_content (utf8 "a\db") (utf8 "# Me")
  = Ok (utf8 "# Me" ++ [nl; nl] ++ stats_section (utf8 "a\db")).
Proof.
  apply (append_without_arrow (utf8 "a\db") (utf8 "# Me")). reflexivity.
Defined.

(** A document that holds only one of the two markers is treated like a
    document without markers: the stray marker stays and a new section is
    inserted behind the last [-->]. *)
Theorem insert_with_one_marker (t doc : pystr) :
  str_in start_marker doc <> str_in end_marker doc ->
  exists before after,
    doc = before ++ arrow ++ after /\
    (forall j, length before < j ->
               startswith arrow (skipn j doc) = false) /\
    update_content t doc =
    Ok (before ++ arrow ++ [nl; nl] ++ stats_section t ++ after).
Proof.
  intros Hx.
  assert (Ha : str_in arrow doc = true).
  { apply marker_has_arrow.
    destruct (str_in start_marker doc), (str_in end_marker doc);
      auto; congruence. }
  assert (Hb : str_in start_marker doc && str_in end_marker doc = false).
  { destruct (str_in start_marker doc), (str_in end_marker doc);
      auto; congruence. }
  rewrite (update_content_else _ _ Hb), Ha.
  destruct (rsplit_arrow _ Ha) as (a & b & -> & Hdoc & Hlast).
  exists a, b. auto.
Qed.

Lemma insert_with_one_marker_witness :
  exists before after,
    utf8 "x" ++ end_marker = before ++ arrow ++ after /\
    (forall j, length before < j ->
               startswith arrow (skipn j (utf8 "x" ++ end_marker)) = false) /\
    update_content (utf8 "T") (utf8 "x" ++ end_marker) =
    Ok (before ++ arrow ++ [nl; nl] ++ stats_section (utf8 "T") ++ after).
Proof.
  apply (insert_with_one_marker (utf8 "T") (utf8 "x" ++ end_marker)).
  discriminate.
Defined.

(** The splicer raises only when [re.sub] rejects the replacement
    template: the document then holds both markers and the table text a
    backslash. *)
Theorem update_content_raises (t doc : pystr) (e : exn) :
  update_content t doc = Raise e ->
  e = TemplateError /\
  str_in start_marker doc = true /\ str_in end_marker doc = true /\
  literal t = false.
Proof.
  intros H.
  assert (Hl : literal t = false).
  { destruct (literal t) eqn:Hl; [|reflexivity].
    destruct (update_content_literal_ok t doc Hl) as [d Hd]. congruence. }
  destruct (str_in start_marker doc && str_in end_marker doc) eqn:Hb.
  - apply andb_true_iff in Hb as [Hs He]. repeat split; auto.
    unfold update_content in H. rewrite Hs, He in H. cbn [andb] in H.
    unfold Template.parse_template in H.
    destruct (Template.parse Template.TNormal (stats_section t));
      [discriminate|]. cbn [bind] in H. congruence.
  - rewrite (update_content_else _ _ Hb) in H.
    destruct (str_in arrow doc); discriminate.
Qed.

Lemma update_content_raises_witness :
  TemplateError = TemplateError /\
  str_in start_marker (start_marker ++ end_marker) = true /\
  str_in end_marker (start_marker ++ end_marker) = true /\
  literal (utf8 "C:\dir") = false.
Proof.
  apply (update_content_raises (utf8 "C:\dir") (start_marker ++ end_marker)).
  reflexivity.
Defined.

Lemma update_content_no_span_witness :
  update_content (utf8 "T") (end_marker ++ start_marker ++ utf8 " tail")
  = Ok (end_marker ++ start_marker ++ utf8 " tail").
Proof.
  apply (update_content_no_span (utf8 "T")
           (end_marker ++ start_marker ++ utf8 " tail") 27); reflexivity.
Defined.

End SplicerExtras.

(** * The file system *)

Section FileFacts.

Lemma fs_set_same (fs : filesystem) (path : pystr) (n : node) :
  fs_set fs path n path = n.
Proof. unfold fs_set. now rewrite str_eqb_refl. Qed.

Lemma update_readme_inv (t path : pystr) (fs fs' : filesystem) :
  update_readme t path fs = Ok fs' ->
  exists data,
    update_content t (old_content fs path) = Ok data /\
    fs' = fs_set fs path (File true true data) /\
    (fs path = Missing \/ exists old, fs path = File true true old).
Proof.
  unfold update_readme, read_file, write_file, old_content.
  destruct (fs path) as [| |r w old] eqn:Hp; cbn [bind].
  - destruct (update_content t default_content) as [data|e]; cbn [bind];
      [|discriminate].
    intros <-%Ok_inj. exists data. auto.
  - discriminate.
  - destruct r; cbn [bind]; [|discriminate].
    destruct (update_content t old) as [data|e]; cbn [bind]; [|discriminate].
    destruct w; [|discriminate].
    intros <-%Ok_inj. exists data. eauto.
Qed.

End FileFacts.

Section FileExtras.

(** On the simple file system, running [update_readme] again with the
    same table leaves every file as the first run left it, for a table text without backslash and end
    marker and a document without a lone start marker. *)
Theorem update_readme_twice (t path : pystr) (fs fs1 : filesystem) :
  update_readme t path fs = Ok fs1 ->
  literal t = true ->
  str_in end_marker t = false ->
  (str_in start_marker (old_content fs path) = true ->
   str_in end_marker (old_content fs path) = true) ->
  exists fs2,
    update_readme t path fs1 = Ok fs2 /\ forall p, fs2 p = fs1 p.
Proof.
  intros (data & Hd & -> & _)%update_readme_inv Hl Ht Hdoc.
  destruct (update_twice_fixed t _ Hl Ht Hdoc) as (d' & Hd' & Htw).
  assert (d' = data) by congruence. subst d'.
  unfold update_twice in Htw. rewrite Hd in Htw. cbn [bind] in Htw.
  exists (fs_set (fs_set fs path (File true true data)) path
            (File true true data)).
  split.
  - unfold update_readme, read_file, write_file.
    rewrite fs_set_same. cbn [bind]. rewrite Htw. reflexivity.
  - intros p. destruct (str_eqb p path) eqn:Hp.
    + apply str_eqb_eq in Hp. subst p. now rewrite !fs_set_same.
    + unfold fs_set. now rewrite Hp.
Qed.

Lemma update_readme_twice_witness :
  exists fs2,
    update_readme (utf8 "T") (utf8 "README.md")
      (fs_set (fun _ => Missing) (utf8 "README.md")
         (File true true
            (default_content ++ [nl; nl] ++ stats_section (utf8 "T"))))
    = Ok fs2 /\
    forall p,
      fs2 p =
      fs_set (fun _ => Missing) (utf8 "README.md")
        (File true true
           (default_content ++ [nl; nl] ++ stats_section (utf8 "T"))) p.
Proof.
  apply (update_readme_twice (utf8 "T") (utf8 "README.md") (fun _ => Missing));
    try reflexivity.
  intros H. discriminate H.
Defined.

End FileExtras.
